(** * Session-gated request gateway, sign-up action and OTP password recovery

    A shallow embedding of the request middleware ([onRequest]), of the
    catch-all auth route ([ALL]) and of the sign-up action ([POST]) of the
    site, together with the recovery core (one-time-code issuer, recovery
    state machine) that the auth configuration of the repository supplies.

    Strings of the gateway are byte strings (a URL pathname is ASCII, and a
    prefix test against an ASCII literal is the same on bytes and on UTF-16
    code units). Strings submitted in a JSON body are lists of UTF-16 code
    units, since the action measures [length] and matches [\s] on them. *)

From Stdlib Require Import String Ascii ZArith NArith Bool PrimFloat.
From stdpp Require Import base tactics option list strings gmap fin_maps.

Local Open Scope string_scope.

(** ** Outcomes of calls into the auth library *)

(** What a [catch] clause can receive: an [APIError] of the auth library,
    with its [status], or any other error. Both carry a [message]. *)
Inductive Exn : Type :=
  | APIError (status : string) (message : string)
  | OtherError (message : string).

Definition exn_message (e : Exn) : string :=
  match e with
  | APIError _ m => m
  | OtherError m => m
  end.

(** A call either returns a value or throws. *)
Inductive Outcome (A : Type) : Type :=
  | Returns (a : A)
  | Throws (e : Exn).
Arguments Returns {A} a.
Arguments Throws {A} e.

(** ** HTTP responses *)

(** The JSON values the handlers serialise with [JSON.stringify]; an object
    keeps its keys in insertion order. *)
#[warnings="-register-all"]
Inductive Json : Type :=
  | JsonString (s : string)
  | JsonTrue
  | JsonObject (fields : list (string * Json)).

Record Response : Type := mkResponse {
  status : nat;
  headers : list (string * string);
  body : option Json
}.

(** [context.redirect(path)] of Astro: a 302 with a Location header. *)
Definition redirect (path : string) : Response :=
  {| status := 302; headers := [("Location", path)]; body := None |}.

(** [new Response(JSON.stringify(j), { status, headers: { "Content-Type":
    "application/json" } })] *)
Definition json_response (st : nat) (j : Json) : Response :=
  {| status := st; headers := [("Content-Type", "application/json")];
     body := Some j |}.

Inductive ConsoleEntry : Type :=
  | Log (line : string)
  | Error (args : list string).

(** * The request gateway (middleware) *)

Module Gateway.

Record User : Type := { email : string; id : string }.
Record Session : Type := { token : string; userId : string }.
Record SessionData : Type := { user : User; session : Session }.

(** [context.locals] *)
Record Locals : Type := mkLocals {
  locals_user : option User;
  locals_session : option Session
}.

(** [context.url.pathname] and [context.request.headers] *)
Record Context : Type := mkContext {
  pathname : string;
  request_headers : list (string * string)
}.

Definition nl : string := String "010"%char "".

(** [auth.api.getSession({ headers })] as the middleware sees it. *)
Definition GetSession : Type :=
  list (string * string) -> Outcome (option SessionData).

Section Middleware.

(** Whatever the downstream page and API handlers can change. *)
Context {World : Type}.

(** State threaded through one invocation of the middleware. *)
Record St : Type := mkSt {
  locals : Locals;
  console : list ConsoleEntry;
  world : World;
  next_calls : nat
}.

Definition M (A : Type) : Type := St -> A * St.

#[local] Instance M_ret : MRet M := fun A a st => (a, st).
#[local] Instance M_bind : MBind M := fun A B k m st =>
  let (a, st') := m st in k a st'.

Definition console_log (line : string) : M unit := fun st =>
  (tt, {| locals := locals st; console := console st ++ [Log line];
          world := world st; next_calls := next_calls st |}).

Definition console_error (args : list string) : M unit := fun st =>
  (tt, {| locals := locals st; console := console st ++ [Error args];
          world := world st; next_calls := next_calls st |}).

Definition set_locals (u : option User) (s : option Session) : M unit :=
  fun st =>
    (tt, {| locals := mkLocals u s; console := console st;
            world := world st; next_calls := next_calls st |}).

Definition get_locals : M Locals := fun st => (locals st, st).

(** The downstream handler reads [locals] and acts on the world. *)
Definition Handler : Type := Locals -> World -> Response * World.

(** [next()] *)
Definition call_next (next : Handler) : M Response := fun st =>
  let (r, w') := next (locals st) (world st) in
  (r, {| locals := locals st; console := console st;
         world := w'; next_calls := S (next_calls st) |}).

(** Step 1 of [onRequest]: the session check inside [try]/[catch]. *)
Definition check_session (getSession : GetSession) (context : Context)
    : M unit :=
  match getSession (request_headers context) with
  | Returns (Some sessionData) =>
      console_log ("✅ Session found for user: "
                   +:+ email (user sessionData)) ;;
      set_locals (Some (user sessionData)) (Some (session sessionData))
  | Returns None =>
      console_log "❌ No session found." ;;
      set_locals None None
  | Throws e =>
      console_error ["🔥 ERROR in middleware while checking session:";
                     exn_message e] ;;
      set_locals None None
  end.

(** Step 2 of [onRequest]: [Some r] is the early [return r], [None] falls
    through to step 3. *)
Definition protect (pathname : string) : M (option Response) :=
  if String.prefix "/dashboard" pathname then
    l ← get_locals;
    if negb (bool_decide (is_Some (locals_user l))) then
      console_log ("🚫 Access DENIED to protected route " +:+ pathname
                   +:+ ". Redirecting to /login.") ;;
      mret (Some (redirect "/sign-in"))
    else mret None
  else mret None.

Definition onRequest (getSession : GetSession) (context : Context)
    (next : Handler) : M Response :=
  console_log (nl +:+ "🚀 MIDDLEWARE EXECUTED for path: "
               +:+ pathname context) ;;
  check_session getSession context ;;
  early ← protect (pathname context);
  match early with
  | Some r => mret r
  | None =>
      console_log ("➡️ Access GRANTED to " +:+ pathname context
                   +:+ ". Passing to next().") ;;
      call_next next
  end.

(** A fresh invocation: empty [locals], nothing logged, [next] not yet
    called. *)
Definition init (w : World) : St :=
  {| locals := mkLocals None None; console := []; world := w;
     next_calls := 0 |}.

Definition handle (getSession : GetSession) (context : Context)
    (next : Handler) (w : World) : Response * St :=
  onRequest getSession context next (init w).

End Middleware.

Arguments St World : clear implicits.
Arguments Handler World : clear implicits.

(** The identity the gateway resolves from the session lookup. *)
Definition identity (o : Outcome (option SessionData)) : option User :=
  match o with
  | Returns (Some sessionData) => Some (user sessionData)
  | Returns None => None
  | Throws _ => None
  end.

Definition resolved_session (o : Outcome (option SessionData))
    : option Session :=
  match o with
  | Returns (Some sessionData) => Some (session sessionData)
  | Returns None => None
  | Throws _ => None
  end.

(** ** The policy in the words of the specification *)

Inductive Decision : Type := Allow | RedirectToSignIn.

(** The configured protected-prefix set and the sign-in entry point. *)
Definition protected_prefixes : list string := ["/dashboard"].
Definition sign_in_entry : string := "/sign-in".

Definition is_protected (path : string) : bool :=
  existsb (fun p => String.prefix p path) protected_prefixes.

(** "Any path whose prefix matches a configured protected-prefix set
    requires a present identity; all other paths are Allow regardless of
    identity." *)
Definition policy (path : string) (identity_present : bool) : Decision :=
  if is_protected path && negb identity_present
  then RedirectToSignIn else Allow.

(** The decision one invocation took: it either answered by itself, without
    [next()], or handed the request on. *)
Definition decision_of {World} (res : Response * St World) : Decision :=
  match next_calls res.2 with
  | 0 => RedirectToSignIn
  | S _ => Allow
  end.

(** What the gateway does to the request when it enacts a decision. *)
Definition enact {World} (d : Decision) (next : Handler World)
    (l : Locals) (w : World) : Response * World * nat :=
  match d with
  | RedirectToSignIn => (redirect sign_in_entry, w, 0)
  | Allow => let (r, w') := next l w in (r, w', 1)
  end.

End Gateway.

(** * The sign-up action *)

Module SignUp.

(** A JavaScript string: its UTF-16 code units. *)
Definition jsstring : Type := list N.

(** The code units of an ASCII literal. *)
Definition js (s : string) : jsstring :=
  map N_of_ascii (list_ascii_of_string s).

(** A property of the parsed JSON body as the handler reads it: absent
    ([undefined]), or any JSON value. Arrays and objects are lumped together;
    two properties of a parsed body are never the same object. *)
Inductive JValue : Type :=
  | JUndefined
  | JNull
  | JBool (b : bool)
  | JNumber (x : float)
  | JString (s : jsstring)
  | JObject.

(** [interface SignUpRequestBody] *)
Record SignUpRequestBody : Type := mkBody {
  name : JValue;
  email : JValue;
  password : JValue;
  confirmPassword : JValue;
  terms : JValue
}.

(** What [await context.request.json()] gives: a syntax error, [null], or a
    value whose five properties can be read (for a number, a string, a
    boolean or an array they are all [undefined]). *)
Inductive ParsedJson : Type :=
  | JsonSyntaxError
  | JsonNull
  | JsonValue (b : SignUpRequestBody).

(** [!v] is [negb (truthy v)] *)
Definition truthy (v : JValue) : bool :=
  match v with
  | JUndefined | JNull => false
  | JBool b => b
  | JNumber x => negb (PrimFloat.eqb x 0%float) && negb (PrimFloat.is_nan x)
  | JString s => negb (bool_decide (s = []))
  | JObject => true
  end.

(** [typeof v === "string"] *)
Definition is_string (v : JValue) : bool :=
  match v with JString _ => true | _ => false end.

(** [a === b] *)
Definition strict_eq (a b : JValue) : bool :=
  match a, b with
  | JUndefined, JUndefined => true
  | JNull, JNull => true
  | JBool x, JBool y => Bool.eqb x y
  | JNumber x, JNumber y => PrimFloat.eqb x y
  | JString s, JString t => bool_decide (s = t)
  | _, _ => false
  end.

(** White space and line terminators of ECMAScript: what [\s] matches and
    what [trim] strips. *)
Definition is_space (c : N) : bool :=
  existsb (N.eqb c)
    [9; 10; 11; 12; 13; 32; 160; 5760; 8232; 8233; 8239; 8287; 12288; 65279]%N
  || (8192 <=? c)%N && (c <=? 8202)%N.

Fixpoint trim_start (s : jsstring) : jsstring :=
  match s with
  | c :: s' => if is_space c then trim_start s' else s
  | [] => []
  end.

(** [s.trim()] *)
Definition trim (s : jsstring) : jsstring :=
  rev (trim_start (rev (trim_start s))).

(** Regular expressions over code units, matched by derivatives. *)
Inductive Re : Type :=
  | Void
  | Eps
  | Cls (p : N -> bool)
  | Seq (r1 r2 : Re)
  | Alt (r1 r2 : Re)
  | Star (r : Re).

Definition Plus (r : Re) : Re := Seq r (Star r).

Fixpoint nullable (r : Re) : bool :=
  match r with
  | Void => false
  | Eps => true
  | Cls _ => false
  | Seq r1 r2 => nullable r1 && nullable r2
  | Alt r1 r2 => nullable r1 || nullable r2
  | Star _ => true
  end.

Fixpoint deriv (c : N) (r : Re) : Re :=
  match r with
  | Void => Void
  | Eps => Void
  | Cls p => if p c then Eps else Void
  | Seq r1 r2 =>
      if nullable r1 then Alt (Seq (deriv c r1) r2) (deriv c r2)
      else Seq (deriv c r1) r2
  | Alt r1 r2 => Alt (deriv c r1) (deriv c r2)
  | Star r' => Seq (deriv c r') (Star r')
  end.

(** [/^r$/.test(s)] *)
Fixpoint test (r : Re) (s : jsstring) : bool :=
  match s with
  | [] => nullable r
  | c :: s' => test (deriv c r) s'
  end.

(** [[^\s@]] *)
Definition not_space_at (c : N) : bool :=
  negb (is_space c) && negb (c =? 64)%N.

(** [/^[^\s@]+@[^\s@]+\.[^\s@]+$/] *)
Definition email_re : Re :=
  Seq (Plus (Cls not_space_at))
    (Seq (Cls (N.eqb 64))
      (Seq (Plus (Cls not_space_at))
        (Seq (Cls (N.eqb 46)) (Plus (Cls not_space_at))))).

(** [errors.key = message], on an object that has no such key yet. *)
Definition set_error (cond : bool) (key message : string)
    (errors : list (string * Json)) : list (string * Json) :=
  if cond then errors ++ [(key, JsonString message)] else errors.

Definition js_length (v : JValue) : nat :=
  match v with JString s => length s | _ => 0 end.

Definition js_trim (v : JValue) : jsstring :=
  match v with JString s => trim s | _ => [] end.

Definition js_test (r : Re) (v : JValue) : bool :=
  match v with JString s => test r s | _ => false end.

(** Step 2 of [POST]: the [errors] object after the five checks. *)
Definition validate (b : SignUpRequestBody) : list (string * Json) :=
  let errors := [] in
  let errors :=
    set_error (negb (truthy (name b)) || negb (is_string (name b))
               || (length (js_trim (name b)) =? 0)%nat)
      "name" "Пожалуйста, введите ваше имя." errors in
  let errors :=
    set_error (negb (truthy (email b)) || negb (is_string (email b))
               || negb (js_test email_re (email b)))
      "email" "Неверный формат email." errors in
  let errors :=
    set_error (negb (truthy (password b)) || negb (is_string (password b))
               || (js_length (password b) <? 8)%nat)
      "password" "Пароль должен быть не менее 8 символов." errors in
  let errors :=
    set_error (negb (strict_eq (password b) (confirmPassword b)))
      "confirmPassword" "Пароли не совпадают." errors in
  let errors :=
    set_error (negb (strict_eq (terms b) (JBool true)))
      "terms" "Вы должны принять условия использования." errors in
  errors.

(** The body handed to [auth.api.signUpEmail]. *)
Record SignUpEmailBody : Type := mkSignUpEmailBody {
  su_name : JValue;
  su_email : JValue;
  su_password : JValue
}.

Section Action.

(** The account store behind the auth library, and its sign-up call. *)
Context {Store : Type}.
Variable signUpEmail : SignUpEmailBody -> Store -> Outcome unit * Store.

Record St : Type := mkSt {
  store : Store;
  console : list ConsoleEntry
}.

(** The [catch] clause of step 3. *)
Definition on_sign_up_error (error : Exn) (st : St) : Response * St :=
  match error with
  | APIError status _ =>
      if bool_decide (status = "UNPROCESSABLE_ENTITY") then
        (json_response 409
           (JsonObject
              [("errors",
                JsonObject
                  [("email",
                    JsonString "Пользователь с таким email уже существует.")])]),
         st)
      else
        (json_response 500
           (JsonObject
              [("message",
                JsonString
                  "Произошла ошибка при регистрации. Попробуйте позже.")]),
         st)
  | OtherError m =>
      (json_response 500
         (JsonObject
            [("message", JsonString "Произошла внутренняя ошибка сервера.")]),
       {| store := store st;
          console := console st
            ++ [Error ["Sign up with email and password has not worked"; m]]
       |})
  end.

(** [POST(context)]: the response, or the error the function rejects with. *)
Definition POST (request_json : ParsedJson) (st : St)
    : Outcome Response * St :=
  match request_json with
  | JsonSyntaxError =>
      (Returns
         (json_response 400
            (JsonObject
               [("message",
                 JsonString "Неверный формат запроса (ожидается JSON).")])),
       st)
  | JsonNull =>
      (Throws (OtherError "Cannot destructure 'body' as it is null."), st)
  | JsonValue body =>
      let errors := validate body in
      if (0 <? length errors)%nat then
        (Returns (json_response 400 (JsonObject [("errors", JsonObject errors)])),
         st)
      else
        match signUpEmail
                {| su_name := name body; su_email := email body;
                   su_password := password body |} (store st) with
        | (Throws error, store') =>
            let (r, st') :=
              on_sign_up_error error
                {| store := store'; console := console st |} in
            (Returns r, st')
        | (Returns _, store') =>
            (Returns (json_response 200 (JsonObject [("success", JsonTrue)])),
             {| store := store'; console := console st |})
        end
  end.

End Action.

Arguments St Store : clear implicits.

(** The auth library's sign-up over a store of registered emails: an email
    that is already registered is refused with an [APIError] of status
    UNPROCESSABLE_ENTITY ("Если пользователь уже существует"), any other
    one is registered. *)
Definition signUpEmail_accounts (b : SignUpEmailBody)
    (accounts : list jsstring) : Outcome unit * list jsstring :=
  match su_email b with
  | JString s =>
      if bool_decide (s ∈ accounts)
      then (Throws (APIError "UNPROCESSABLE_ENTITY" "User already exists"),
            accounts)
      else (Returns tt, s :: accounts)
  | _ => (Throws (APIError "BAD_REQUEST" "Invalid email"), accounts)
  end.

End SignUp.

(** * The recovery core: one-time codes and the password-reset flow *)

Module Recovery.

(** Modelled from the spec: the record of a one-time code (section 3). The
    issuer itself is supplied by the auth configuration ([lib/auth/auth]),
    which is not among the sources. *)
Record OneTimeCode : Type := mkCode {
  otc_email : string;
  purpose : string;
  code : string;
  issuedAt : Z;
  expiresAt : Z;
  consumed : bool;
  attempts : nat
}.

(** Modelled from the spec: a user record of the Credential Store. *)
Record User : Type := mkUser {
  id : string;
  email : string;
  name : string;
  passwordHash : string;
  emailVerified : bool
}.

(** Modelled from the spec: a session record of the Session Store. *)
Record Session : Type := mkSession {
  token : string;
  userId : string;
  createdAt : Z;
  session_expiresAt : Z;
  rememberMe : bool
}.

(** Modelled from the spec: the configuration constants (TTL of a code,
    cap on attempts) and the password hash, which the core only calls. *)
Record Config : Type := mkConfig {
  TTL : Z;
  attempts_cap : nat;
  hash : string -> string
}.

(** What the environment decides for one request: the clock, the random
    draw of the issuer, and which external calls fail. *)
Record Env : Type := mkEnv {
  now : Z;
  draw : N;
  send_ok : bool;
  write_ok : bool;
  sweep_fails : string -> bool
}.

Definition digit (d : N) : ascii := ascii_of_N (48 + d mod 10).

(** A draw rendered as six ASCII digits, leading zeros preserved. *)
Definition six_digits (n : N) : string :=
  String (digit (n / 100000))
    (String (digit (n / 10000))
      (String (digit (n / 1000))
        (String (digit (n / 100))
          (String (digit (n / 10)) (String (digit n) ""))))).

Definition for_pair (e p : string) (r : OneTimeCode) : bool :=
  bool_decide (otc_email r = e) && bool_decide (purpose r = p).

(** [expiresAt] has passed. *)
Definition expired (t : Z) (r : OneTimeCode) : bool := (expiresAt r <? t)%Z.

(** Active: unconsumed and unexpired. *)
Definition active (t : Z) (r : OneTimeCode) : bool :=
  negb (consumed r) && negb (expired t r).

Definition mark_consumed (r : OneTimeCode) : OneTimeCode :=
  {| otc_email := otc_email r; purpose := purpose r; code := code r;
     issuedAt := issuedAt r; expiresAt := expiresAt r;
     consumed := true; attempts := attempts r |}.

Definition count_attempt (r : OneTimeCode) : OneTimeCode :=
  {| otc_email := otc_email r; purpose := purpose r; code := code r;
     issuedAt := issuedAt r; expiresAt := expiresAt r;
     consumed := consumed r; attempts := S (attempts r) |}.

(** Modelled from the spec: the state of the issuer, its stored records
    (newest first) and what the out-of-band dispatcher has delivered. *)
Record Issuer : Type := mkIssuer {
  codes : list OneTimeCode;
  outbox : list (string * string)
}.

(** The record of a pair is the newest one stored for it. *)
Fixpoint find_code (e p : string) (l : list OneTimeCode)
    : option OneTimeCode :=
  match l with
  | [] => None
  | r :: l' => if for_pair e p r then Some r else find_code e p l'
  end.

(** The active codes of a pair at time [t]. *)
Definition active_codes (t : Z) (e p : string) (l : list OneTimeCode)
    : list OneTimeCode :=
  List.filter (fun r => for_pair e p r && active t r) l.

Section Core.

Variable cfg : Config.

(** Modelled from the spec: "marks consumed, without granting match, any
    pre-existing active code for the same (email, purpose)". *)
Definition invalidate (t : Z) (e p : string) (r : OneTimeCode)
    : OneTimeCode :=
  if for_pair e p r && active t r then mark_consumed r else r.

(** The record [issue] stores: a fresh draw, no attempt yet, unconsumed, to
    expire after the TTL. *)
Definition fresh_code (env : Env) (e p : string) : OneTimeCode :=
  {| otc_email := e; purpose := p; code := six_digits (draw env);
     issuedAt := now env; expiresAt := (now env + TTL cfg)%Z;
     consumed := false; attempts := 0 |}.

(** Modelled from the spec: [issue(email, purpose)] of section 4.1. The
    result tells the caller whether the dispatch worked, never the code. *)
Definition issue (env : Env) (e p : string) (st : Issuer) : bool * Issuer :=
  let r := fresh_code env e p in
  (send_ok env,
   {| codes := r :: map (invalidate (now env) e p) (codes st);
      outbox := if send_ok env then (e, code r) :: outbox st
                else outbox st |}).

(** Modelled from the spec: the checks of [validateAndConsume] on the record
    of the pair, in the order section 4.1 lists them, and the one update
    that goes with the answer. *)
Definition check (t : Z) (c : string) (r : OneTimeCode)
    : bool * OneTimeCode :=
  if expired t r then (false, r)
  else if consumed r then (false, r)
  else if (attempts_cap cfg <=? attempts r)%nat then (false, r)
  else if bool_decide (code r = c) then (true, mark_consumed r)
  else (false, count_attempt r).

Fixpoint validate_codes (t : Z) (e p c : string) (l : list OneTimeCode)
    : bool * list OneTimeCode :=
  match l with
  | [] => (false, [])
  | r :: l' =>
      if for_pair e p r then
        let (ok, r') := check t c r in (ok, r' :: l')
      else
        let (ok, l'') := validate_codes t e p c l' in (ok, r :: l'')
  end.

(** Modelled from the spec: [validateAndConsume(email, purpose, code)] of
    section 4.1, one read-modify-write on the store. *)
Definition validateAndConsume (env : Env) (e p c : string) (st : Issuer)
    : bool * Issuer :=
  let (ok, l) := validate_codes (now env) e p c (codes st) in
  (ok, {| codes := l; outbox := outbox st |}).

(** Modelled from the spec: the stores and the issuer the flow works on. *)
Record System : Type := mkSystem {
  credentials : gmap string User;
  sessions : gmap string Session;
  issuer : Issuer;
  log : list ConsoleEntry
}.

(** Modelled from the spec: [findByEmail(email) -> User | absent] of the
    Credential Store (section 6). *)
Definition findByEmail (e : string) (sys : System) : option User :=
  credentials sys !! e.

(** Modelled from the spec: [lookup(token) -> Session | absent] of the
    Session Store, with the gateway's test that the session has not
    expired (section 4.3). *)
Definition resolve (t : Z) (tok : string) (ss : gmap string Session)
    : option Session :=
  match ss !! tok with
  | Some s => if (session_expiresAt s <? t)%Z then None else Some s
  | None => None
  end.

Definition set_hash (uid h : string) (u : User) : User :=
  if bool_decide (id u = uid)
  then {| id := id u; email := email u; name := name u; passwordHash := h;
          emailVerified := emailVerified u |}
  else u.

(** Modelled from the spec: [updatePassword(userId, newHash) -> ok | fail]
    of the Credential Store (section 6). *)
Definition updatePassword (env : Env) (uid h : string)
    (cs : gmap string User) : bool * gmap string User :=
  if write_ok env then (true, set_hash uid h <$> cs) else (false, cs).

Definition swept (env : Env) (uid : string) (kv : string * Session) : bool :=
  bool_decide (userId kv.2 = uid) && negb (sweep_fails env kv.1).

(** Modelled from the spec: [invalidateAll(userId) -> count], "a
    best-effort sweep of all sessions for the user id" (section 5): a
    session whose invalidation fails stays. *)
Definition invalidateAll (env : Env) (uid : string)
    (ss : gmap string Session) : nat * gmap string Session :=
  (size (filter (fun kv => swept env uid kv = true) ss),
   filter (fun kv => swept env uid kv = false) ss).

(** How many sessions the user has. *)
Definition sessions_of (uid : string) (ss : gmap string Session) : nat :=
  size (filter (fun kv : string * Session => userId kv.2 = uid) ss).

Definition forget_password : string := "forget-password".

Definition check_your_email : Response :=
  json_response 202 (JsonObject [("message", JsonString "check your email")]).

(** Modelled from the spec: the Request transition of section 4.2. *)
Definition requestReset (env : Env) (e : string) (sys : System)
    : Response * System :=
  match findByEmail e sys with
  | None => (check_your_email, sys)
  | Some _ =>
      let (sent, iss) := issue env e forget_password (issuer sys) in
      (check_your_email,
       {| credentials := credentials sys; sessions := sessions sys;
          issuer := iss;
          log := if sent then log sys
                 else log sys ++ [Error ["DispatchFailure"; e]] |})
  end.

Inductive CommitResult : Type :=
  | Success
  | ValidationError (field : string)
  | InvalidOrExpiredCode
  | StoreUnavailable.

(** Modelled from the spec: the Commit transition of section 4.2. *)
Definition commitReset (env : Env) (e c newPassword : string)
    (sys : System) : CommitResult * System :=
  if (String.length newPassword <? 8)%nat then (ValidationError "password", sys)
  else
    let (ok, iss) := validateAndConsume env e forget_password c (issuer sys) in
    let sys1 := {| credentials := credentials sys; sessions := sessions sys;
                   issuer := iss; log := log sys |} in
    if negb ok then (InvalidOrExpiredCode, sys1)
    else
      match findByEmail e sys1 with
      | None => (InvalidOrExpiredCode, sys1)
      | Some u =>
          let (written, cs) :=
            updatePassword env (id u) (hash cfg newPassword)
              (credentials sys1) in
          if negb written then
            (StoreUnavailable,
             {| credentials := cs; sessions := sessions sys1;
                issuer := iss;
                log := log sys1 ++ [Error ["StoreUnavailable"; id u]] |})
          else
            let (n, ss) := invalidateAll env (id u) (sessions sys1) in
            (Success,
             {| credentials := cs; sessions := ss; issuer := iss;
                log := if (n <? sessions_of (id u) (sessions sys1))%nat
                       then log sys1 ++ [Error ["SessionSweepIncomplete"; id u]]
                       else log sys1 |})
      end.

(** A request as the auth handler reads it. *)
Record Request : Type := mkRequest {
  method : string;
  url : string;
  json : list (string * string)
}.

Definition field (k : string) (req : Request) : string :=
  default "" (snd <$> head (filter (fun kv => kv.1 = k) (json req))).

Definition commit_response (r : CommitResult) : Response :=
  match r with
  | Success => json_response 200 (JsonObject [("success", JsonTrue)])
  | ValidationError f =>
      json_response 400 (JsonObject [("error", JsonString "ValidationError");
                                     ("field", JsonString f)])
  | InvalidOrExpiredCode =>
      json_response 400 (JsonObject [("error", JsonString "InvalidOrExpiredCode")])
  | StoreUnavailable =>
      json_response 503 (JsonObject [("error", JsonString "StoreUnavailable")])
  end.

(** Modelled from the spec: [auth.handler], the HTTP-shaped surface of
    section 6 as mounted under [/api/auth]. *)
Definition handler (env : Env) (req : Request) (sys : System)
    : Response * System :=
  if bool_decide (method req = "POST")
     && bool_decide (url req = "/api/auth/otp/send")
  then requestReset env (field "email" req) sys
  else if bool_decide (method req = "POST")
          && bool_decide (url req = "/api/auth/otp/reset-password")
  then
    let (r, sys') :=
      commitReset env (field "email" req) (field "otp" req)
        (field "password" req) sys in
    (commit_response r, sys')
  else (json_response 404 (JsonObject [("error", JsonString "Not Found")]), sys).

(** The state machine of section 4.2, read off the record of a pair. *)
Inductive CodeState : Type :=
  | NoActiveCode
  | Active
  | Consumed
  | Expired
  | Exhausted.

Definition state_of (t : Z) (o : option OneTimeCode) : CodeState :=
  match o with
  | None => NoActiveCode
  | Some r =>
      if consumed r then Consumed
      else if expired t r then Expired
      else if (attempts_cap cfg <=? attempts r)%nat then Exhausted
      else Active
  end.

Definition terminal (s : CodeState) : bool :=
  match s with
  | Consumed | Expired | Exhausted => true
  | NoActiveCode | Active => false
  end.

(** One call of the issuer's API, and runs of such calls. *)
Inductive Call : Type :=
  | CallIssue (env : Env) (e p : string)
  | CallValidate (env : Env) (e p c : string).

Definition call_time (k : Call) : Z :=
  match k with
  | CallIssue env _ _ => now env
  | CallValidate env _ _ _ => now env
  end.

Definition run_call (k : Call) (st : Issuer) : bool * Issuer :=
  match k with
  | CallIssue env e p => issue env e p st
  | CallValidate env e p c => validateAndConsume env e p c st
  end.

Fixpoint run_calls (ks : list Call) (st : Issuer) : Issuer :=
  match ks with
  | [] => st
  | k :: ks' => run_calls ks' (run_call k st).2
  end.

Definition is_validate (k : Call) : bool :=
  match k with CallValidate _ _ _ _ => true | CallIssue _ _ _ => false end.

End Core.

Arguments System : clear implicits.

(** The clock never runs backwards along a run that starts at [t]. *)
Fixpoint monotone (t : Z) (ks : list Call) : Prop :=
  match ks with
  | [] => True
  | k :: ks' => (t <= call_time k)%Z /\ monotone (call_time k) ks'
  end.

(** The time of the last call of a run that starts at [t]. *)
Fixpoint last_time (t : Z) (ks : list Call) : Z :=
  match ks with
  | [] => t
  | k :: ks' => last_time (call_time k) ks'
  end.

Definition empty_issuer : Issuer := {| codes := []; outbox := [] |}.

(** At most one code of a pair is active at any time from [t0] on. *)
Definition at_most_one_active (t0 : Z) (st : Issuer) : Prop :=
  forall t e p, (t0 <= t)%Z ->
    (length (active_codes t e p (codes st)) <= 1)%nat.

End Recovery.

(** * The catch-all auth route *)

Module AuthRoute.

Section Route.

Context {World : Type}.

(** [auth.handler] *)
Variable auth_handler : Recovery.Request -> World -> Response * World.

(** [ALL(ctx)]: one line on the console, then whatever [auth.handler]
    answers for [ctx.request]. *)
Definition ALL (request : Recovery.Request) (st : list ConsoleEntry * World)
    : Response * (list ConsoleEntry * World) :=
  let console :=
    (st.1 ++ [Log ("➡️ [HANDLER] Получен запрос: " +:+ Recovery.method request
                   +:+ " " +:+ Recovery.url request)])%list in
  let (r, w) := auth_handler request st.2 in
  (r, (console, w)).

End Route.

End AuthRoute.

(** * The life of a stored code *)

Module CodeLife.

Import Recovery.

(** How a stored record can differ from what it was: it is the same code
    (same pair, value, dates), a consumed one stays consumed, and attempts
    only grow. *)
Definition evolves_to (r r' : OneTimeCode) : Prop :=
  otc_email r' = otc_email r /\ purpose r' = purpose r /\ code r' = code r
  /\ issuedAt r' = issuedAt r /\ expiresAt r' = expiresAt r
  /\ (consumed r = true -> consumed r' = true)
  /\ attempts r <= attempts r'.

(** A fresh [issue] for the pair is among the calls. *)
Definition issued_in (e p : string) (ks : list Call) : Prop :=
  exists env, CallIssue env e p ∈ ks.

End CodeLife.

(** * What the sign-up checks accept, said directly *)

Module SignUpSyntax.

Import SignUp.

(** The strings a regular expression denotes. *)
Inductive matches : Re -> jsstring -> Prop :=
  | matches_eps : matches Eps []
  | matches_cls p c : p c = true -> matches (Cls p) [c]
  | matches_seq r1 r2 s1 s2 :
      matches r1 s1 -> matches r2 s2 -> matches (Seq r1 r2) (s1 ++ s2)%list
  | matches_alt_l r1 r2 s : matches r1 s -> matches (Alt r1 r2) s
  | matches_alt_r r1 r2 s : matches r2 s -> matches (Alt r1 r2) s
  | matches_star_nil r : matches (Star r) []
  | matches_star_app r s1 s2 :
      matches r s1 -> matches (Star r) s2 -> matches (Star r) (s1 ++ s2)%list.

(** A non-empty run of code units that are neither white space nor [@]. *)
Definition word (s : jsstring) : Prop :=
  s <> [] /\ Forall (fun c => not_space_at c = true) s.

(** [local@domain.tld]: three such runs, joined by an [@] and a dot (the
    runs after the [@] may hold further dots). *)
Definition email_shape (s : jsstring) : Prop :=
  exists a b c, s = (a ++ [64%N] ++ b ++ [46%N] ++ c)%list
                /\ word a /\ word b /\ word c.

(** A submission with nothing to report. *)
Definition well_formed (b : SignUpRequestBody) : Prop :=
  exists n e pw,
    name b = JString n /\ Exists (fun c => is_space c = false) n
    /\ email b = JString e /\ email_shape e
    /\ password b = JString pw /\ 8 <= length pw
    /\ confirmPassword b = JString pw
    /\ terms b = JBool true.

(** The same error with its message rewritten, and a sign-up call whose
    errors are so rewritten. *)
Definition with_message (h : string -> string) (e : Exn) : Exn :=
  match e with
  | APIError s m => APIError s (h m)
  | OtherError m => OtherError (h m)
  end.

Definition relabel {Store : Type} (h : string -> string)
    (f : SignUpEmailBody -> Store -> Outcome unit * Store)
    : SignUpEmailBody -> Store -> Outcome unit * Store :=
  fun b s =>
    match f b s with
    | (Throws e, s') => (Throws (with_message h e), s')
    | (Returns a, s') => (Returns a, s')
    end.

(** The call [POST] makes for a submission. *)
Definition sign_up_call (b : SignUpRequestBody) : SignUpEmailBody :=
  {| su_name := name b; su_email := email b; su_password := password b |}.

(** The keys of the [errors] object, in the order the checks run. *)
Definition error_keys : list string :=
  ["name"; "email"; "password"; "confirmPassword"; "terms"].

End SignUpSyntax.

(** * The client: errors caught around an axios call *)

Module Axios.

(** What a [catch] clause around [axios.post] or an auth-client call can
    receive: an axios error, with the body of the response when there was
    one, another [Error], or any other value. [D] is the declared type of
    the body. *)
Inductive Caught (D : Type) : Type :=
  | AxiosError (data : option D) (message : string)
  | ErrorObject (message : string)
  | OtherValue.
Arguments AxiosError {D} data message.
Arguments ErrorObject {D} message.
Arguments OtherValue {D}.

(** A string is truthy when it is there and not empty. *)
Definition truthy (o : option string) : bool :=
  match o with
  | Some s => negb (String.eqb s "")
  | None => false
  end.

(** [a || b], for an optional string [a] and a string [b]. *)
Definition or_else (a : option string) (b : string) : string :=
  match a with
  | Some s => if String.eqb s "" then b else s
  | None => b
  end.

(** [a || b], both optional. *)
Definition or_opt (a b : option string) : option string :=
  if truthy a then a else b.

(** [interface ApiError] of the sign-in and forgot-password components. *)
Record ApiError : Type := mkApiError {
  api_message : option string;
  api_error : option string
}.

End Axios.

(** * The forgot-password flow (component) *)

Module ForgotPasswordFlow.

Import Axios.

Definition getErrorMessage (error : Caught ApiError) : string :=
  let defaultMessage := "Произошла неизвестная ошибка. Попробуйте снова." in
  match error with
  | AxiosError serverError message =>
      or_else (or_opt (serverError ≫= api_message)
                 (serverError ≫= api_error)) message
  | ErrorObject message => message
  | OtherValue => defaultMessage
  end.

(** [type StatusState] *)
Record StatusState : Type := mkStatus {
  message : option string;
  error : option string
}.

(** A request the component sends with [axios.post]. *)
Record Post : Type := mkPost {
  post_url : string;
  post_fields : list (string * string)
}.

(** State of [ForgotPasswordFlow], with the requests sent so far. *)
Record Flow : Type := mkFlow {
  email : string;
  isSearching : bool;
  showResetForm : bool;
  status : StatusState;
  sent : list Post
}.

(** [handleSearchSubmit] up to the [await]: the request leaves with the
    email of this render. *)
Definition search_started (st : Flow) : Flow :=
  {| email := email st; isSearching := true; showResetForm := showResetForm st;
     status := mkStatus None None;
     sent := (sent st ++ [mkPost "/api/auth/otp/send"
                            [("email", email st);
                             ("type", "forget-password")]])%list |}.

(** [handleSearchSubmit] after the [await]: [None] when the request
    resolved, [Some error] when it was rejected. *)
Definition search_settled (outcome : option (Caught ApiError)) (st : Flow)
    : Flow :=
  match outcome with
  | None =>
      {| email := email st; isSearching := false; showResetForm := true;
         status := status st; sent := sent st |}
  | Some error =>
      let message := getErrorMessage error in
      {| email := email st; isSearching := false;
         showResetForm := showResetForm st;
         status :=
           mkStatus None
             (Some (or_else (Some message)
                      "Не удалось найти аккаунт с таким email."));
         sent := sent st |}
  end.

(** [onChange] of the email input: [setEmail(e.target.value)]. The input is
    rendered, and enabled, as long as the reset form is not shown. *)
Definition changeEmail (value : string) (st : Flow) : Flow :=
  {| email := value; isSearching := isSearching st;
     showResetForm := showResetForm st; status := status st;
     sent := sent st |}.

(** The [email] prop of [ResetPasswordForm], when that form is rendered. *)
Definition reset_form_email (st : Flow) : option string :=
  if showResetForm st then Some (email st) else None.

Definition otp_send_request (e : string) : Post :=
  mkPost "/api/auth/otp/send" [("email", e); ("type", "forget-password")].

(** One run of [handleSearchSubmit], nothing else happening meanwhile. *)
Definition handleSearchSubmit (outcome : option (Caught ApiError))
    (st : Flow) : Flow :=
  search_settled outcome (search_started st).

(** State of [ResetPasswordForm], with the requests sent so far. *)
Record ResetForm : Type := mkResetForm {
  passwordsMatch : bool;
  isResetting : bool;
  reset_status : StatusState;
  reset_sent : list Post
}.

(** The fields read from the submitted form. *)
Record ResetFields : Type := mkResetFields {
  password : string;
  confirmPassword : string;
  otp : string
}.

(** One run of [handleSubmit] of [ResetPasswordForm], for the [email] prop,
    the fields of the form, and the outcome of the request if one is
    sent. *)
Definition handleSubmit (email : string) (f : ResetFields)
    (outcome : option (Caught ApiError)) (st : ResetForm) : ResetForm :=
  if negb (String.eqb (password f) (confirmPassword f)) then
    {| passwordsMatch := false; isResetting := isResetting st;
       reset_status := mkStatus None None; reset_sent := reset_sent st |}
  else
    let sent :=
      (reset_sent st ++ [mkPost "/api/auth/otp/reset-password"
                           [("email", email); ("otp", otp f);
                            ("password", password f)]])%list in
    match outcome with
    | None =>
        {| passwordsMatch := true; isResetting := false;
           reset_status :=
             mkStatus
               (Some "Пароль успешно сброшен! Перенаправляем на страницу входа...")
               None;
           reset_sent := sent |}
    | Some error =>
        let message := getErrorMessage error in
        {| passwordsMatch := true; isResetting := false;
           reset_status :=
             mkStatus None
               (Some (or_else (Some message)
                        "Не удалось сбросить пароль. Код может быть неверным или срок его действия истек."));
           reset_sent := sent |}
    end.

End ForgotPasswordFlow.

(** * The sign-in form (component) *)

Module SignInForm.

Import Axios.

Definition getErrorMessage (error : Caught ApiError) : string :=
  let defaultMessage := "Произошла неизвестная ошибка. Попробуйте снова." in
  match error with
  | AxiosError serverError message =>
      or_else (or_opt (serverError ≫= api_message)
                 (serverError ≫= api_error)) message
  | ErrorObject message => message
  | OtherValue => defaultMessage
  end.

(** The [formErrors] state. *)
Record FormErrors : Type := mkFormErrors {
  fe_email : option string;
  fe_password : option string;
  fe_general : option string
}.

Inductive Provider : Type := google | vk.

(** State of [SignInForm]; [location] is the last assignment to
    [window.location.href], if any. *)
Record State : Type := mkState {
  showPassword : bool;
  formErrors : FormErrors;
  generalMessage : option string;
  isGoogleLoading : bool;
  isVkLoading : bool;
  isSubmitting : bool;
  location : option string
}.

Definition initial : State :=
  {| showPassword := false; formErrors := mkFormErrors None None None;
     generalMessage := None; isGoogleLoading := false; isVkLoading := false;
     isSubmitting := false; location := None |}.

(** What can happen to the component: each event is one stretch of a
    handler between two [await]s, or an effect. *)
Inductive Event : Type :=
  | TogglePassword
  | SessionArrived
  | SubmitStarted
  | SubmitResolved
  | SubmitRejected (error : Caught ApiError)
  | SocialStarted (provider : Provider)
  | SocialResolved (provider : Provider)
  | SocialRejected (provider : Provider) (error : Caught ApiError).

Definition set_loading (provider : Provider) (b : bool) (st : State)
    : bool * bool :=
  match provider with
  | google => (b, isVkLoading st)
  | vk => (isGoogleLoading st, b)
  end.

Section Component.

(** The [dashboardPath] prop. *)
Variable dashboardPath : string.

Definition react (ev : Event) (st : State) : State :=
  match ev with
  | TogglePassword =>
      {| showPassword := negb (showPassword st); formErrors := formErrors st;
         generalMessage := generalMessage st;
         isGoogleLoading := isGoogleLoading st; isVkLoading := isVkLoading st;
         isSubmitting := isSubmitting st; location := location st |}
  | SessionArrived =>
      {| showPassword := showPassword st; formErrors := formErrors st;
         generalMessage := generalMessage st;
         isGoogleLoading := isGoogleLoading st; isVkLoading := isVkLoading st;
         isSubmitting := isSubmitting st; location := Some dashboardPath |}
  | SubmitStarted =>
      {| showPassword := showPassword st;
         formErrors := mkFormErrors None None None;
         generalMessage := None;
         isGoogleLoading := isGoogleLoading st; isVkLoading := isVkLoading st;
         isSubmitting := true; location := location st |}
  | SubmitResolved =>
      {| showPassword := showPassword st; formErrors := formErrors st;
         generalMessage := generalMessage st;
         isGoogleLoading := isGoogleLoading st; isVkLoading := isVkLoading st;
         isSubmitting := false; location := Some dashboardPath |}
  | SubmitRejected error =>
      let message := getErrorMessage error in
      {| showPassword := showPassword st;
         formErrors := mkFormErrors None None (Some message);
         generalMessage := Some message;
         isGoogleLoading := isGoogleLoading st; isVkLoading := isVkLoading st;
         isSubmitting := false; location := location st |}
  | SocialStarted provider =>
      {| showPassword := showPassword st; formErrors := formErrors st;
         generalMessage := generalMessage st;
         isGoogleLoading := (set_loading provider true st).1;
         isVkLoading := (set_loading provider true st).2;
         isSubmitting := isSubmitting st; location := location st |}
  | SocialResolved provider => st
  | SocialRejected provider error =>
      let message := getErrorMessage error in
      {| showPassword := showPassword st;
         formErrors := mkFormErrors None None (Some message);
         generalMessage := Some message;
         isGoogleLoading := (set_loading provider false st).1;
         isVkLoading := (set_loading provider false st).2;
         isSubmitting := isSubmitting st; location := location st |}
  end.

Definition run (evs : list Event) (st : State) : State :=
  fold_left (fun s ev => react ev s) evs st.

End Component.

Inductive Style : Type := Red | Green.

(** The banner above the form: hidden, or a text in a style. *)
Definition banner (st : State) : option (Style * string) :=
  if truthy (generalMessage st) then
    Some (if truthy (fe_general (formErrors st)) then Red else Green,
          default "" (generalMessage st))
  else None.

(** The texts under the email and password inputs. *)
Definition field_texts (st : State) : list string :=
  ((if truthy (fe_email (formErrors st))
    then [default "" (fe_email (formErrors st))] else [])
   ++ (if truthy (fe_password (formErrors st))
       then [default "" (fe_password (formErrors st))] else []))%list.

End SignInForm.

(** * The sign-up form (component) *)

Module SignUpForm.

Import Axios.

(** [interface FormData] *)
Record FormData : Type := mkFormData {
  name : SignUp.jsstring;
  email : SignUp.jsstring;
  password : SignUp.jsstring;
  confirmPassword : SignUp.jsstring
}.

(** [interface FormErrors]: the keys that are set, in insertion order. *)
Definition FormErrors : Type := list (string * string).

(** [interface ApiErrorPayload] *)
Record ApiErrorPayload : Type := mkPayload {
  payload_errors : option FormErrors;
  payload_message : option string
}.

Record State : Type := mkState {
  formData : FormData;
  termsAccepted : bool;
  errors : FormErrors;
  isLoading : bool;
  isSuccess : bool;
  sent : list (string * SignUp.SignUpRequestBody)
}.

Definition set_error (cond : bool) (key message : string)
    (errors : FormErrors) : FormErrors :=
  if cond then (errors ++ [(key, message)])%list else errors.

(** [validateForm]: the [newErrors] it stores; it returns whether they are
    empty. *)
Definition validateForm (st : State) : FormErrors :=
  let newErrors := [] in
  let newErrors :=
    set_error (length (SignUp.trim (name (formData st))) =? 0)%nat
      "name" "Пожалуйста, введите ваше имя." newErrors in
  let newErrors :=
    set_error (negb (SignUp.test SignUp.email_re (email (formData st))))
      "email" "Неверный формат email." newErrors in
  let newErrors :=
    set_error (length (password (formData st)) <? 8)%nat
      "password" "Пароль должен быть не менее 8 символов." newErrors in
  let newErrors :=
    set_error (negb (bool_decide (password (formData st)
                                  = confirmPassword (formData st))))
      "confirmPassword" "Пароли не совпадают." newErrors in
  let newErrors :=
    set_error (negb (termsAccepted st))
      "terms" "Вы должны принять условия." newErrors in
  newErrors.

(** [{ ...formData, terms: termsAccepted }] *)
Definition request_body (st : State) : SignUp.SignUpRequestBody :=
  {| SignUp.name := SignUp.JString (name (formData st));
     SignUp.email := SignUp.JString (email (formData st));
     SignUp.password := SignUp.JString (password (formData st));
     SignUp.confirmPassword := SignUp.JString (confirmPassword (formData st));
     SignUp.terms := SignUp.JBool (termsAccepted st) |}.

(** The [catch] clause of [handleSubmit]: the errors to show. *)
Definition errors_of (error : Caught ApiErrorPayload) : FormErrors :=
  let errorMessage := [("general", "Ошибка сети. Попробуйте снова.")] in
  match error with
  | AxiosError serverError _ =>
      if bool_decide (is_Some (serverError ≫= payload_errors))
         || truthy (serverError ≫= payload_message)
      then
        match serverError ≫= payload_errors with
        | Some es => es
        | None =>
            [("general",
              or_else (serverError ≫= payload_message) "Ошибка сервера.")]
        end
      else errorMessage
  | _ => errorMessage
  end.

(** One run of [handleSubmit]: [None] when the request resolved, [Some
    error] when it was rejected. *)
Definition handleSubmit (outcome : option (Caught ApiErrorPayload))
    (st : State) : State :=
  let newErrors := validateForm st in
  if negb (length newErrors =? 0)%nat then
    {| formData := formData st; termsAccepted := termsAccepted st;
       errors := newErrors; isLoading := isLoading st;
       isSuccess := isSuccess st; sent := sent st |}
  else
    let sent :=
      (sent st ++ [("/api/auth/sign-up/email", request_body st)])%list in
    match outcome with
    | None =>
        {| formData := formData st; termsAccepted := termsAccepted st;
           errors := []; isLoading := false; isSuccess := true;
           sent := sent |}
    | Some error =>
        {| formData := formData st; termsAccepted := termsAccepted st;
           errors := errors_of error; isLoading := false;
           isSuccess := isSuccess st; sent := sent |}
    end.

Inductive Field : Type := FName | FEmail | FPassword | FConfirmPassword.

(** [handleInputChange]: [setFormData(prev => ({ ...prev, [name]: value }))]
    for the input named after the field. *)
Definition handleInputChange (field : Field) (value : SignUp.jsstring)
    (st : State) : State :=
  let d := formData st in
  {| formData :=
       match field with
       | FName => mkFormData value (email d) (password d) (confirmPassword d)
       | FEmail => mkFormData (name d) value (password d) (confirmPassword d)
       | FPassword => mkFormData (name d) (email d) value (confirmPassword d)
       | FConfirmPassword => mkFormData (name d) (email d) (password d) value
       end;
     termsAccepted := termsAccepted st; errors := errors st;
     isLoading := isLoading st; isSuccess := isSuccess st; sent := sent st |}.

(** [onChange] of the terms checkbox. *)
Definition setTermsAccepted (checked : bool) (st : State) : State :=
  {| formData := formData st; termsAccepted := checked; errors := errors st;
     isLoading := isLoading st; isSuccess := isSuccess st; sent := sent st |}.

(** What the visitor does with the form. *)
Inductive Event : Type :=
  | Input (field : Field) (value : SignUp.jsstring)
  | Terms (checked : bool)
  | Submit (outcome : option (Caught ApiErrorPayload)).

Definition is_submit (ev : Event) : bool :=
  match ev with Submit _ => true | _ => false end.

Definition react (ev : Event) (st : State) : State :=
  match ev with
  | Input field value => handleInputChange field value st
  | Terms checked => setTermsAccepted checked st
  | Submit outcome => handleSubmit outcome st
  end.

Definition run (evs : list Event) (st : State) : State :=
  fold_left (fun s ev => react ev s) evs st.

(** The text shown under a field, or in the general box: [errors[key]]
    when it is truthy. *)
Definition shown (key : string) (es : FormErrors) : option string :=
  match snd <$> head (filter (fun kv => kv.1 = key) es) with
  | Some s => if String.eqb s "" then None else Some s
  | None => None
  end.

(** How axios settles a request answered by [r]: resolved on a 2xx status,
    rejected otherwise with the parsed body ([msg] is the text axios gives
    the error). *)
Definition json_string (j : Json) : option string :=
  match j with JsonString s => Some s | _ => None end.

Definition json_field (k : string) (j : Json) : option Json :=
  match j with
  | JsonObject fields => snd <$> head (filter (fun kv => kv.1 = k) fields)
  | _ => None
  end.

Definition json_errors (j : Json) : option FormErrors :=
  match j with
  | JsonObject fields =>
      Some (omap (fun kv => pair kv.1 <$> json_string kv.2) fields)
  | _ => None
  end.

Definition payload_of (j : Json) : ApiErrorPayload :=
  {| payload_errors := json_field "errors" j ≫= json_errors;
     payload_message := json_field "message" j ≫= json_string |}.

Definition settle (msg : string) (r : Response)
    : option (Caught ApiErrorPayload) :=
  if (200 <=? status r)%nat && (status r <? 300)%nat then None
  else Some (AxiosError (payload_of <$> body r) msg).

End SignUpForm.

(** * Sample requests and stores *)

Module Samples.

(** A dashboard page that records every visit in the world. *)
Definition dashboard_page : Gateway.Handler nat :=
  fun _ visits => (json_response 200 (JsonObject []), S visits).

Definition no_cookie : Gateway.GetSession := fun _ => Returns None.

(** A session lookup that fails because the session store is down. *)
Definition store_down : Gateway.GetSession :=
  fun _ => Throws (OtherError "connect ECONNREFUSED 127.0.0.1:5432").

Definition home_page : Gateway.Handler nat :=
  fun _ visits => (json_response 200 (JsonObject []), S visits).

(** A well-formed sign-up submission. *)
Definition ann : SignUp.SignUpRequestBody :=
  {| SignUp.name := SignUp.JString (SignUp.js "Ann");
     SignUp.email := SignUp.JString (SignUp.js "ann@example.com");
     SignUp.password := SignUp.JString (SignUp.js "longenough1");
     SignUp.confirmPassword := SignUp.JString (SignUp.js "longenough1");
     SignUp.terms := SignUp.JBool true |}.

Definition sign_up_state (accounts : list SignUp.jsstring)
    : SignUp.St (list SignUp.jsstring) :=
  {| SignUp.store := accounts; SignUp.console := [] |}.

(** The configuration of the recovery core: codes live ten minutes (in
    milliseconds) and allow five attempts. *)
Definition cfg : Recovery.Config :=
  {| Recovery.TTL := 600000; Recovery.attempts_cap := 5;
     Recovery.hash := fun s => "hash:" +:+ s |}.

(** A request at time [t] where every external call works. *)
Definition at_time (t : Z) (n : N) : Recovery.Env :=
  {| Recovery.now := t; Recovery.draw := n; Recovery.send_ok := true;
     Recovery.write_ok := true; Recovery.sweep_fails := fun _ => false |}.

Definition alice : string := "a@x.com".

(** The first code issued to alice, and the issuer holding it. *)
Definition first_code : Recovery.OneTimeCode :=
  Recovery.mkCode alice "forget-password" "123456" 0 600000 false 0.

Definition issued : Recovery.Issuer :=
  (Recovery.issue cfg (at_time 0 123456) alice Recovery.forget_password
     Recovery.empty_issuer).2.

Definition guess (t : Z) (c : string) : Recovery.Call :=
  Recovery.CallValidate (at_time t 0) alice Recovery.forget_password c.

Definition alice_user : Recovery.User :=
  Recovery.mkUser "u1" alice "Alice" "hash:oldpassword" true.

Definition bob_user : Recovery.User :=
  Recovery.mkUser "u2" "b@x.com" "Bob" "hash:bobspassword" true.

Definition alice_session : Recovery.Session :=
  Recovery.mkSession "tok-a" "u1" 0 86400000 false.

Definition bob_session : Recovery.Session :=
  Recovery.mkSession "tok-b" "u2" 0 86400000 true.

(** Alice and Bob are signed in, and alice holds a reset code. *)
Definition site : Recovery.System :=
  {| Recovery.credentials :=
       <[alice := alice_user]> (<["b@x.com" := bob_user]> ∅);
     Recovery.sessions :=
       <["tok-a" := alice_session]> (<["tok-b" := bob_session]> ∅);
     Recovery.issuer := issued;
     Recovery.log := [] |}.

(** A request during which the session sweep fails on every session. *)
Definition sweep_down (t : Z) : Recovery.Env :=
  {| Recovery.now := t; Recovery.draw := 0; Recovery.send_ok := true;
     Recovery.write_ok := true; Recovery.sweep_fails := fun _ => true |}.

Definition otp_send (e : string) : Recovery.Request :=
  {| Recovery.method := "POST"; Recovery.url := "/api/auth/otp/send";
     Recovery.json := [("email", e); ("type", "forget-password")] |}.

End Samples.


(** * Sample pages, forms and requests of the components *)

Module Cases.

(** Alice's first code is consumed, then a second code is issued to her
    and the draw repeats the first. *)
Definition consumed_then_reissued : Recovery.Issuer :=
  (Recovery.issue Samples.cfg (Samples.at_time 1000 123456) Samples.alice
     Recovery.forget_password
     (Recovery.validateAndConsume Samples.cfg (Samples.at_time 1 0)
        Samples.alice Recovery.forget_password "123456" Samples.issued).2).2.

(** A route handler that counts its calls. *)
Definition pong : Recovery.Request -> nat -> Response * nat :=
  fun _ n => (json_response 200 (JsonObject [("pong", JsonTrue)]), S n).

Definition sign_out : Recovery.Request :=
  {| Recovery.method := "POST"; Recovery.url := "/api/auth/sign-out";
     Recovery.json := [] |}.

(** A submission whose password is too short. *)
Definition short_password : SignUp.SignUpRequestBody :=
  {| SignUp.name := SignUp.JString (SignUp.js "Ann");
     SignUp.email := SignUp.JString (SignUp.js "ann@example.com");
     SignUp.password := SignUp.JString (SignUp.js "short");
     SignUp.confirmPassword := SignUp.JString (SignUp.js "short");
     SignUp.terms := SignUp.JBool true |}.

(** The sign-up form, filled in by Ann. *)
Definition ann_form : SignUpForm.State :=
  {| SignUpForm.formData :=
       SignUpForm.mkFormData (SignUp.js "Ann") (SignUp.js "ann@example.com")
         (SignUp.js "longenough1") (SignUp.js "longenough1");
     SignUpForm.termsAccepted := true; SignUpForm.errors := [];
     SignUpForm.isLoading := false; SignUpForm.isSuccess := false;
     SignUpForm.sent := [] |}.

(** The forgot-password flow with an email typed in. *)
Definition flow (e : string) : ForgotPasswordFlow.Flow :=
  {| ForgotPasswordFlow.email := e; ForgotPasswordFlow.isSearching := false;
     ForgotPasswordFlow.showResetForm := false;
     ForgotPasswordFlow.status := ForgotPasswordFlow.mkStatus None None;
     ForgotPasswordFlow.sent := [] |}.

End Cases.
(** * Properties of the gateway *)

Section GatewayFacts.

Import Gateway.

Context {World : Type}.
Implicit Types (gs : GetSession) (ctx : Context) (next : Handler World)
  (w : World).

(** Runs one invocation of the middleware symbolically. *)
Ltac run_middleware :=
  unfold handle, onRequest, check_session, protect, init;
  unfold mbind, mret, M_bind, M_ret, console_log, console_error, set_locals,
    get_locals, call_next.

(** One invocation, case by case: [locals] holds what the lookup resolved,
    and the request is either redirected with the world untouched or handed
    to [next()] exactly once. *)
Lemma handle_cases gs ctx next w :
  let o := gs (request_headers ctx) in
  let l := mkLocals (identity o) (resolved_session o) in
  let res := handle gs ctx next w in
  locals res.2 = l /\
  if String.prefix "/dashboard" (pathname ctx)
     && negb (bool_decide (is_Some (identity o)))
  then res.1 = redirect "/sign-in" /\ world res.2 = w /\ next_calls res.2 = 0
  else res.1 = (next l w).1 /\ world res.2 = (next l w).2
       /\ next_calls res.2 = 1.
Proof.
  run_middleware.
  destruct (gs (request_headers ctx)) as [[sd|]|e]; simpl;
    destruct (String.prefix "/dashboard" (pathname ctx)); simpl;
    try destruct (next _ w); simpl; auto.
Qed.

Lemma is_protected_dashboard path :
  is_protected path = String.prefix "/dashboard" path.
Proof. unfold is_protected, protected_prefixes. simpl. apply orb_false_r. Qed.

Lemma is_protected_iff path :
  is_protected path = true <->
  exists p, p ∈ protected_prefixes /\ String.prefix p path = true.
Proof.
  unfold is_protected. rewrite existsb_exists.
  split; intros (p & Hp & Hpre); exists p; split; auto;
    by apply list_elem_of_In.
Qed.

Lemma present_false (o : Outcome (option SessionData)) :
  bool_decide (is_Some (identity o)) = false <-> identity o = None.
Proof.
  rewrite bool_decide_eq_false, <- eq_None_not_Some. reflexivity.
Qed.

(** C1. The decision of the gateway is the policy applied to the path and to
    whether the lookup resolved an identity, whatever the handler, the world
    and the headers are otherwise: sign-in redirect exactly when some
    protected prefix (/dashboard) is a prefix of the path and no identity is
    present, Allow in every other case; and the request is treated as the
    decision says. *)
Theorem gateway_decides_by_policy gs ctx next w :
  let o := gs (request_headers ctx) in
  let present := bool_decide (is_Some (identity o)) in
  let res := handle gs ctx next w in
  decision_of res = policy (pathname ctx) present
  /\ (res.1, world res.2, next_calls res.2)
     = enact (policy (pathname ctx) present) next (locals res.2) w
  /\ (decision_of res = RedirectToSignIn <->
      (exists p, p ∈ protected_prefixes
                 /\ String.prefix p (pathname ctx) = true)
      /\ identity o = None)
  /\ (decision_of res = Allow <->
      ~ ((exists p, p ∈ protected_prefixes
                    /\ String.prefix p (pathname ctx) = true)
         /\ identity o = None)).
Proof.
  intros o present res.
  destruct (handle_cases gs ctx next w) as [Hl Hc].
  fold o res in Hl, Hc. fold present in Hc.
  assert (Hd : decision_of res = policy (pathname ctx) present
               /\ (res.1, world res.2, next_calls res.2)
                  = enact (policy (pathname ctx) present) next
                      (locals res.2) w).
  { unfold policy, decision_of, enact. rewrite is_protected_dashboard, Hl.
    destruct (String.prefix "/dashboard" (pathname ctx) && negb present).
    - destruct Hc as (-> & -> & ->). auto.
    - destruct Hc as (-> & -> & ->).
      destruct (next _ w); auto. }
  destruct Hd as [Hd He].
  assert (Hiff : policy (pathname ctx) present = RedirectToSignIn <->
                 (exists p, p ∈ protected_prefixes
                            /\ String.prefix p (pathname ctx) = true)
                 /\ identity o = None).
  { rewrite <- is_protected_iff, <- present_false. fold present.
    unfold policy.
    destruct (is_protected (pathname ctx)), present; simpl;
      intuition discriminate. }
  split; [exact Hd |]. split; [exact He |]. rewrite Hd. split; [exact Hiff |].
  rewrite <- Hiff. destruct (policy (pathname ctx) present);
    intuition discriminate.
Qed.

(** C2. On a protected path with no resolvable session the answer is the
    redirect to the sign-in page, [next()] is not called, the world the
    handler acts on is left as it was, and the whole outcome (console
    included) is the same whatever the downstream handler is. *)
Theorem redirect_never_runs_handler gs ctx next w :
  is_protected (pathname ctx) = true ->
  identity (gs (request_headers ctx)) = None ->
  let res := handle gs ctx next w in
  decision_of res = RedirectToSignIn
  /\ res.1 = redirect "/sign-in"
  /\ world res.2 = w
  /\ next_calls res.2 = 0
  /\ forall next', handle gs ctx next' w = res.
Proof.
  intros Hp Hi res.
  rewrite is_protected_dashboard in Hp.
  destruct (handle_cases gs ctx next w) as [_ Hc].
  rewrite Hp, Hi in Hc. simpl in Hc. destruct Hc as (Hr & Hw & Hn).
  fold res in Hr, Hw, Hn.
  repeat split; auto.
  - unfold decision_of. by rewrite Hn.
  - intros next'. unfold res. run_middleware.
    destruct (gs (request_headers ctx)) as [[sd|]|e]; simpl in *;
      try discriminate; rewrite Hp; simpl; reflexivity.
Qed.

(** C7, as the code has it. When the session lookup throws, the gateway
    writes the error message to the server console and goes on as for an
    anonymous caller: same response, same effect on the world and same
    decision as when the lookup finds no session (redirect on a protected
    path, the downstream handler otherwise). Nothing of the error reaches
    the response. *)
Theorem session_failure_treated_as_anonymous gs ctx next w e :
  gs (request_headers ctx) = Throws e ->
  let res := handle gs ctx next w in
  let anon := handle (fun _ => Returns None) ctx next w in
  res.1 = anon.1
  /\ world res.2 = world anon.2
  /\ next_calls res.2 = next_calls anon.2
  /\ locals res.2 = mkLocals None None
  /\ decision_of res = policy (pathname ctx) false
  /\ Error ["🔥 ERROR in middleware while checking session:"; exn_message e]
       ∈ console res.2.
Proof.
  intros He res anon. subst res anon.
  unfold decision_of, policy. rewrite is_protected_dashboard.
  run_middleware.
  rewrite He. simpl.
  destruct (String.prefix "/dashboard" (pathname ctx)); simpl;
    try destruct (next _ w); simpl; repeat split; auto;
    rewrite !elem_of_cons; auto.
Qed.

End GatewayFacts.

Lemma session_failure_treated_as_anonymous_witness :
  let ctx := Gateway.mkContext "/dashboard" [] in
  let res := Gateway.handle Samples.store_down ctx Samples.dashboard_page 0 in
  let anon := Gateway.handle (fun _ => Returns None) ctx
                Samples.dashboard_page 0 in
  res.1 = anon.1
  /\ Gateway.world res.2 = Gateway.world anon.2
  /\ Gateway.next_calls res.2 = Gateway.next_calls anon.2
  /\ Gateway.locals res.2 = Gateway.mkLocals None None
  /\ Gateway.decision_of res = Gateway.policy "/dashboard" false
  /\ Error ["🔥 ERROR in middleware while checking session:";
            "connect ECONNREFUSED 127.0.0.1:5432"]
       ∈ Gateway.console res.2.
Proof.
  exact (session_failure_treated_as_anonymous Samples.store_down
           (Gateway.mkContext "/dashboard" []) Samples.dashboard_page 0
           (OtherError "connect ECONNREFUSED 127.0.0.1:5432") eq_refl).
Defined.

(** C7, as stated, fails: with the session store down, a request for the
    home page is answered 200 by the page handler, which has run; no server
    error is surfaced. *)
Lemma store_failure_not_surfaced :
  let res := Gateway.handle Samples.store_down (Gateway.mkContext "/" [])
               Samples.home_page 0 in
  Samples.store_down [] = Throws (OtherError "connect ECONNREFUSED 127.0.0.1:5432")
  /\ status res.1 = 200
  /\ (500 <=? status res.1)%nat = false
  /\ Gateway.next_calls res.2 = 1
  /\ Gateway.world res.2 = 1.
Proof. repeat split. Qed.

(** C8. The sign-in entry point has no protected prefix; every redirect the
    gateway emits goes to it; and a request for it is handed to the
    downstream handler whatever the session lookup says. Nothing in the
    decision mentions the sign-in path: it is [policy], a test of the path
    against the protected prefixes alone (see C1). *)
Theorem sign_in_entry_is_unprotected :
  Gateway.is_protected Gateway.sign_in_entry = false
  /\ (forall p, p ∈ Gateway.protected_prefixes ->
               String.prefix p Gateway.sign_in_entry = false)
  /\ (forall World gs ctx (next : Gateway.Handler World) w,
        let res := Gateway.handle gs ctx next w in
        Gateway.decision_of res = Gateway.RedirectToSignIn ->
        res.1 = redirect Gateway.sign_in_entry)
  /\ (forall World gs hdrs (next : Gateway.Handler World) w,
        let res := Gateway.handle gs
                     (Gateway.mkContext Gateway.sign_in_entry hdrs) next w in
        Gateway.decision_of res = Gateway.Allow
        /\ (res.1, Gateway.world res.2) = next (Gateway.locals res.2) w).
Proof.
  split; [reflexivity |]. split.
  { intros p Hp. apply list_elem_of_In in Hp. simpl in Hp.
    destruct Hp as [<- | []]. reflexivity. }
  split.
  - intros World gs ctx next w res.
    destruct (handle_cases gs ctx next w) as [_ Hc]. fold res in Hc.
    unfold Gateway.decision_of.
    destruct (_ && _).
    + destruct Hc as (-> & _). reflexivity.
    + destruct Hc as (_ & _ & ->). discriminate.
  - intros World gs hdrs next w res.
    destruct (handle_cases gs (Gateway.mkContext Gateway.sign_in_entry hdrs)
                next w) as [Hl Hc].
    fold res in Hc, Hl. simpl in Hc. destruct Hc as (Hr & Hw & Hn).
    unfold Gateway.decision_of. rewrite Hn, Hr, Hw, Hl.
    split; [reflexivity |]. by destruct (next _ w).
Qed.

Lemma redirect_never_runs_handler_witness :
  let res := Gateway.handle Samples.no_cookie
               (Gateway.mkContext "/dashboard/settings" []) Samples.dashboard_page 7 in
  Gateway.decision_of res = Gateway.RedirectToSignIn
  /\ res.1 = redirect "/sign-in"
  /\ Gateway.world res.2 = 7
  /\ Gateway.next_calls res.2 = 0
  /\ forall next',
       Gateway.handle Samples.no_cookie (Gateway.mkContext "/dashboard/settings" [])
         next' 7 = res.
Proof.
  apply (redirect_never_runs_handler Samples.no_cookie
           (Gateway.mkContext "/dashboard/settings" []) Samples.dashboard_page 7);
    reflexivity.
Defined.

(** * Properties of the sign-up action *)

Example email_re_accepts :
  SignUp.test SignUp.email_re (SignUp.js "ann@example.com") = true
  /\ SignUp.test SignUp.email_re (SignUp.js "a@b.c.d") = true.
Proof. split; vm_compute; reflexivity. Qed.

Example email_re_rejects :
  SignUp.test SignUp.email_re (SignUp.js "ann@example") = false
  /\ SignUp.test SignUp.email_re (SignUp.js "an n@example.com") = false
  /\ SignUp.test SignUp.email_re (SignUp.js "a@b@example.com") = false
  /\ SignUp.test SignUp.email_re (SignUp.js "@example.com") = false
  /\ SignUp.test SignUp.email_re (SignUp.js "ann@example.") = false.
Proof. repeat split; vm_compute; reflexivity. Qed.

Example trim_strips_both_ends :
  SignUp.trim (SignUp.js "  Ann Lee ") = SignUp.js "Ann Lee"
  /\ SignUp.trim (SignUp.js "   ") = [].
Proof. split; vm_compute; reflexivity. Qed.

Example validate_reports_every_field :
  map fst (SignUp.validate
             (SignUp.mkBody SignUp.JUndefined SignUp.JUndefined
                SignUp.JUndefined (SignUp.JString (SignUp.js "x"))
                SignUp.JUndefined))
  = ["name"; "email"; "password"; "confirmPassword"; "terms"].
Proof. vm_compute. reflexivity. Qed.

Example validate_accepts_ann : SignUp.validate Samples.ann = [].
Proof. vm_compute. reflexivity. Qed.

Section SignUpFacts.

Import SignUp.

Lemma set_error_nil cond key message errors :
  set_error cond key message errors = [] -> cond = false /\ errors = [].
Proof.
  unfold set_error. destruct cond; [| auto].
  intros H. by apply app_eq_nil in H as [_ ?].
Qed.

(** A submission that passes validation carries its email as a string. *)
Lemma validate_nil_email body :
  validate body = [] -> exists e, email body = JString e.
Proof.
  unfold validate. intros H.
  apply set_error_nil in H as [_ H]. apply set_error_nil in H as [_ H].
  apply set_error_nil in H as [_ H]. apply set_error_nil in H as [He _].
  apply orb_false_elim in He as [He _]. apply orb_false_elim in He as [_ He].
  destruct (email body); try discriminate. eauto.
Qed.

Context {Store : Type}.
Variable signUpEmail : SignUpEmailBody -> Store -> Outcome unit * Store.

(** What the auth library does with an email, registered or not: the
    handler's own comment reads the status UNPROCESSABLE_ENTITY as "the
    user already exists". *)
Variable has_account : Store -> jsstring -> bool.
Hypothesis existing_refused : forall b s e,
  su_email b = JString e -> has_account s e = true ->
  exists m s', signUpEmail b s
               = (Throws (APIError "UNPROCESSABLE_ENTITY" m), s').
Hypothesis fresh_accepted : forall b s e,
  su_email b = JString e -> has_account s e = false ->
  exists s', signUpEmail b s = (Returns tt, s').

(** C10. For a submission that passes validation, the sign-up action
    answers 409 with the email-field error "a user with this email already
    exists" when the email has an account, and 200 when it has none: the two
    responses differ, so the answer tells whether the email is registered. *)
Theorem sign_up_reveals_existing_account body e st1 st2 :
  validate body = [] ->
  email body = JString e ->
  has_account (store st1) e = true ->
  has_account (store st2) e = false ->
  (POST signUpEmail (JsonValue body) st1).1
  = Returns (json_response 409
      (JsonObject
         [("errors",
           JsonObject
             [("email",
               JsonString "Пользователь с таким email уже существует.")])]))
  /\ (POST signUpEmail (JsonValue body) st2).1
     = Returns (json_response 200 (JsonObject [("success", JsonTrue)]))
  /\ (POST signUpEmail (JsonValue body) st1).1
     <> (POST signUpEmail (JsonValue body) st2).1.
Proof.
  intros Hv He H1 H2.
  destruct (existing_refused
              {| su_name := name body; su_email := email body;
                 su_password := password body |} (store st1) e He H1)
    as (m & s1 & E1).
  destruct (fresh_accepted
              {| su_name := name body; su_email := email body;
                 su_password := password body |} (store st2) e He H2)
    as (s2 & E2).
  assert (P1 : (POST signUpEmail (JsonValue body) st1).1
               = Returns (json_response 409
                   (JsonObject
                      [("errors",
                        JsonObject
                          [("email",
                            JsonString
                              "Пользователь с таким email уже существует.")])]))).
  { unfold POST. rewrite Hv. simpl. rewrite E1. reflexivity. }
  assert (P2 : (POST signUpEmail (JsonValue body) st2).1
               = Returns (json_response 200
                            (JsonObject [("success", JsonTrue)]))).
  { unfold POST. rewrite Hv. simpl. rewrite E2. reflexivity. }
  split; [exact P1 |]. split; [exact P2 |].
  rewrite P1, P2. discriminate.
Qed.

End SignUpFacts.

Lemma accounts_existing_refused (b : SignUp.SignUpEmailBody) s e :
  SignUp.su_email b = SignUp.JString e -> bool_decide (e ∈ s) = true ->
  exists m s', SignUp.signUpEmail_accounts b s
               = (Throws (APIError "UNPROCESSABLE_ENTITY" m), s').
Proof.
  intros He Hin. unfold SignUp.signUpEmail_accounts. rewrite He, Hin. eauto.
Qed.

Lemma accounts_fresh_accepted (b : SignUp.SignUpEmailBody) s e :
  SignUp.su_email b = SignUp.JString e -> bool_decide (e ∈ s) = false ->
  exists s', SignUp.signUpEmail_accounts b s = (Returns tt, s').
Proof.
  intros He Hin. unfold SignUp.signUpEmail_accounts. rewrite He, Hin. eauto.
Qed.

Lemma sign_up_reveals_existing_account_witness :
  let post := SignUp.POST SignUp.signUpEmail_accounts
                (SignUp.JsonValue Samples.ann) in
  let taken := Samples.sign_up_state [SignUp.js "ann@example.com"] in
  let free := Samples.sign_up_state [] in
  (post taken).1
  = Returns (json_response 409
      (JsonObject
         [("errors",
           JsonObject
             [("email",
               JsonString "Пользователь с таким email уже существует.")])]))
  /\ (post free).1
     = Returns (json_response 200 (JsonObject [("success", JsonTrue)]))
  /\ (post taken).1 <> (post free).1.
Proof.
  apply (sign_up_reveals_existing_account SignUp.signUpEmail_accounts
           (fun s e => bool_decide (e ∈ s))
           accounts_existing_refused accounts_fresh_accepted
           Samples.ann (SignUp.js "ann@example.com")
           (Samples.sign_up_state [SignUp.js "ann@example.com"])
           (Samples.sign_up_state []));
    vm_compute; reflexivity.
Defined.

(** * Properties of the one-time-code issuer *)

Section IssuerFacts.

Import Recovery.

Variable cfg : Config.

Implicit Types (r : OneTimeCode) (l : list OneTimeCode) (st : Issuer)
  (e p c : string) (t : Z) (env : Env) (ks : list Call).

Lemma for_pair_true e p r :
  for_pair e p r = true <-> otc_email r = e /\ purpose r = p.
Proof.
  unfold for_pair. rewrite andb_true_iff, !bool_decide_eq_true. reflexivity.
Qed.

Lemma for_pair_two e p e' p' r :
  for_pair e p r = true -> for_pair e' p' r = true -> e = e' /\ p = p'.
Proof.
  rewrite !for_pair_true. intros [<- <-] [<- <-]. auto.
Qed.

(** A record is dead at [t] when it is consumed, expired or exhausted. *)
Lemma terminal_state_of t r :
  terminal (state_of cfg t (Some r))
  = consumed r || expired t r || (attempts_cap cfg <=? attempts r)%nat.
Proof.
  unfold state_of.
  destruct (consumed r), (expired t r), (attempts_cap cfg <=? attempts r)%nat;
    reflexivity.
Qed.

Lemma check_terminal t c r :
  terminal (state_of cfg t (Some r)) = true -> check cfg t c r = (false, r).
Proof.
  rewrite terminal_state_of. unfold check.
  destruct (expired t r); [reflexivity |].
  destruct (consumed r); [reflexivity |].
  destruct (attempts_cap cfg <=? attempts r)%nat; [reflexivity |]. discriminate.
Qed.

Lemma terminal_later t t' r :
  (t <= t')%Z ->
  terminal (state_of cfg t (Some r)) = true ->
  terminal (state_of cfg t' (Some r)) = true.
Proof.
  rewrite !terminal_state_of. unfold expired. intros Ht.
  destruct (consumed r); [reflexivity |].
  destruct (attempts_cap cfg <=? attempts r)%nat;
    [by rewrite !orb_true_r |].
  rewrite !orb_false_r. simpl. rewrite !Z.ltb_lt. lia.
Qed.

(** On a terminal record [validateAndConsume] answers false and changes
    nothing. *)
Lemma validate_codes_terminal t e p c l r :
  find_code e p l = Some r ->
  terminal (state_of cfg t (Some r)) = true ->
  validate_codes cfg t e p c l = (false, l).
Proof.
  induction l as [| r0 l IH]; simpl; [discriminate |].
  destruct (for_pair e p r0).
  - intros [= ->] Hd. by rewrite check_terminal.
  - intros Hf Hd. by rewrite IH.
Qed.

(** A call for another pair leaves the record of this pair as it is. *)
Lemma validate_codes_other t e p e' p' c l :
  (e, p) <> (e', p') ->
  find_code e p (validate_codes cfg t e' p' c l).2 = find_code e p l.
Proof.
  intros Hne. induction l as [| r0 l IH]; simpl; [reflexivity |].
  destruct (for_pair e' p' r0) eqn:H'.
  - destruct (check cfg t c r0) as [ok r1] eqn:Hc. simpl.
    destruct (for_pair e p r0) eqn:H.
    + destruct (for_pair_two _ _ _ _ _ H H') as [-> ->]. congruence.
    + assert (for_pair e p r1 = false) as ->; [| reflexivity].
      unfold check in Hc. unfold for_pair in *.
      repeat match type of Hc with
             | (if ?b then _ else _) = _ => destruct b
             end; injection Hc as <- <-; exact H.
  - destruct (validate_codes cfg t e' p' c l) as [ok l1]. simpl in *.
    by rewrite IH.
Qed.

(** The record of the pair keeps its code value, whatever is validated. *)
Lemma validate_codes_same t e p c l r :
  find_code e p l = Some r ->
  exists r', find_code e p (validate_codes cfg t e p c l).2 = Some r'
             /\ code r' = code r
             /\ (consumed r = true -> consumed r' = true)
             /\ ((validate_codes cfg t e p c l).1 = true ->
                 consumed r' = true /\ code r = c /\ consumed r = false
                 /\ expired t r = false
                 /\ (attempts r < attempts_cap cfg)%nat).
Proof.
  induction l as [| r0 l IH]; simpl; [discriminate |].
  destruct (for_pair e p r0) eqn:H.
  - intros [= ->]. destruct (check cfg t c r) as [ok r1] eqn:Hc. simpl.
    assert (Hp : for_pair e p r1 = true
                 /\ code r1 = code r
                 /\ (consumed r = true -> consumed r1 = true)
                 /\ (ok = true -> consumed r1 = true /\ code r = c
                     /\ consumed r = false /\ expired t r = false
                     /\ (attempts r < attempts_cap cfg)%nat)).
    { unfold check in Hc. unfold for_pair in *.
      destruct (expired t r) eqn:E1;
        [injection Hc as <- <-; by repeat split |].
      destruct (consumed r) eqn:E2;
        [injection Hc as <- <-; by repeat split |].
      destruct (attempts_cap cfg <=? attempts r)%nat eqn:E3;
        [injection Hc as <- <-; by repeat split |].
      apply Nat.leb_gt in E3.
      destruct (bool_decide (code r = c)) eqn:E4;
        injection Hc as <- <-; simpl; repeat split; auto; try discriminate.
      by apply bool_decide_eq_true in E4. }
    destruct Hp as (-> & Hp). eauto.
  - intros Hf. destruct (validate_codes cfg t e p c l) as [ok l1].
    simpl in *. rewrite H. auto.
Qed.

Lemma validateAndConsume_terminal env e p c st r :
  find_code e p (codes st) = Some r ->
  terminal (state_of cfg (now env) (Some r)) = true ->
  validateAndConsume cfg env e p c st = (false, st).
Proof.
  intros Hf Hd. unfold validateAndConsume.
  rewrite (validate_codes_terminal _ _ _ _ _ _ Hf Hd). by destruct st.
Qed.

Lemma consumed_terminal t r :
  consumed r = true -> terminal (state_of cfg t (Some r)) = true.
Proof. intros H. rewrite terminal_state_of, H. reflexivity. Qed.

Lemma monotone_all t ks :
  monotone t ks -> Forall (fun k => (t <= call_time k)%Z) ks.
Proof.
  revert t. induction ks as [| k ks IH]; intros t; simpl; [constructor |].
  intros [Hk Hm]. constructor; [exact Hk |].
  eapply Forall_impl; [apply IH, Hm |]. simpl. intros. lia.
Qed.

(** Along a run of validations, a record that is terminal at the time of
    each call stays the record of its pair, untouched. *)
Lemma run_validations_keep_terminal ks st e p r :
  forallb is_validate ks = true ->
  find_code e p (codes st) = Some r ->
  Forall (fun k => terminal (state_of cfg (call_time k) (Some r)) = true) ks ->
  find_code e p (codes (run_calls cfg ks st)) = Some r.
Proof.
  revert st. induction ks as [| k ks IH]; intros st; simpl; [auto |].
  destruct k as [| env' e' p' c']; simpl; [discriminate |].
  intros Hv Hf Hall. inversion Hall as [| ? ? Hk Hks]; subst. simpl in Hk.
  apply IH; auto.
  destruct (decide ((e, p) = (e', p'))) as [[= <- <-] | Hne].
  - by rewrite (validateAndConsume_terminal _ _ _ _ _ _ Hf Hk).
  - unfold validateAndConsume.
    pose proof (validate_codes_other (now env') e p e' p' c' (codes st) Hne)
      as Ho.
    destruct (validate_codes cfg (now env') e' p' c' (codes st)). simpl in *.
    congruence.
Qed.

Lemma check_shrinks t t' e p c r :
  for_pair e p (check cfg t' c r).2 = for_pair e p r
  /\ (active t (check cfg t' c r).2 = true -> active t r = true).
Proof.
  unfold check.
  destruct (expired t' r); [auto |].
  destruct (consumed r) eqn:Hc; [auto |].
  destruct (attempts_cap cfg <=? attempts r)%nat; [auto |].
  destruct (bool_decide (code r = c)); simpl; (split; [reflexivity |]).
  - unfold active. simpl. discriminate.
  - unfold active, expired. simpl. by rewrite Hc.
Qed.

(** A validation never makes a code active. *)
Lemma active_codes_validate t t' e p e' p' c l :
  (length (active_codes t e p (validate_codes cfg t' e' p' c l).2)
   <= length (active_codes t e p l))%nat.
Proof.
  induction l as [| r l IH]; simpl; [lia |].
  destruct (for_pair e' p' r).
  - destruct (check_shrinks t t' e p c r) as [Hp Ha].
    destruct (check cfg t' c r) as [ok r1]. simpl in *. rewrite Hp.
    destruct (for_pair e p r); simpl; [| lia].
    destruct (active t r1); simpl.
    + rewrite Ha by reflexivity. simpl. lia.
    + destruct (active t r); simpl; lia.
  - destruct (validate_codes cfg t' e' p' c l) as [ok l1]. simpl in *.
    destruct (for_pair e p r && active t r); simpl; lia.
Qed.

Lemma invalidate_pair t e p e' p' r :
  for_pair e' p' (invalidate t e p r) = for_pair e' p' r.
Proof. unfold invalidate. by destruct (for_pair e p r && active t r). Qed.

(** What [issue] invalidates is inactive from then on. *)
Lemma invalidate_inactive t0 t e p r :
  (t0 <= t)%Z -> for_pair e p r = true ->
  active t (invalidate t0 e p r) = false.
Proof.
  intros Ht Hp. unfold invalidate. rewrite Hp. simpl.
  destruct (active t0 r) eqn:Ha; [reflexivity |].
  unfold active, expired in *.
  destruct (consumed r); [reflexivity |]. simpl in *.
  apply negb_false_iff in Ha. apply negb_false_iff.
  rewrite Z.ltb_lt in *. lia.
Qed.

Lemma invalidate_other t e p r :
  for_pair e p r = false -> invalidate t e p r = r.
Proof. intros Hp. unfold invalidate. by rewrite Hp. Qed.

Lemma active_codes_invalidated t0 t e p l :
  (t0 <= t)%Z -> active_codes t e p (map (invalidate t0 e p) l) = [].
Proof.
  intros Ht. induction l as [| r l IH]; simpl; [reflexivity |].
  rewrite invalidate_pair.
  destruct (for_pair e p r) eqn:Hp; simpl; [| exact IH].
  by rewrite invalidate_inactive.
Qed.

Lemma active_codes_invalidate_other t0 t e p e' p' l :
  (e, p) <> (e', p') ->
  active_codes t e' p' (map (invalidate t0 e p) l) = active_codes t e' p' l.
Proof.
  intros Hne. induction l as [| r l IH]; simpl; [reflexivity |].
  rewrite invalidate_pair.
  destruct (for_pair e' p' r) eqn:Hp'; simpl; [| exact IH].
  rewrite invalidate_other; [by rewrite IH |].
  destruct (for_pair e p r) eqn:Hp; [| reflexivity].
  destruct (for_pair_two _ _ _ _ _ Hp Hp') as [-> ->]. congruence.
Qed.

Lemma fresh_code_other env e p e' p' :
  (e, p) <> (e', p') -> for_pair e' p' (fresh_code cfg env e p) = false.
Proof.
  intros Hne. destruct (for_pair e' p' (fresh_code cfg env e p)) eqn:H;
    [| reflexivity].
  apply for_pair_true in H as [H1 H2]. simpl in *. congruence.
Qed.

Lemma run_call_one_active k st t0 :
  (t0 <= call_time k)%Z ->
  at_most_one_active t0 st ->
  at_most_one_active (call_time k) (run_call cfg k st).2.
Proof.
  intros Hk Hinv t e p Ht.
  destruct k as [env e' p' | env e' p' c']; simpl in *.
  -     destruct (decide ((e', p') = (e, p))) as [[= -> ->] | Hne].
    + rewrite active_codes_invalidated by exact Ht.
      destruct (_ && _); simpl; lia.
    + rewrite (fresh_code_other _ _ _ _ _ Hne). simpl.
      fold (active_codes t e p (map (invalidate (now env) e' p') (codes st))).
      rewrite active_codes_invalidate_other by exact Hne.
      apply Hinv. lia.
  - unfold validateAndConsume.
    pose proof (active_codes_validate t (now env) e p e' p' c' (codes st)).
    destruct (validate_codes cfg (now env) e' p' c' (codes st)). simpl in *.
    specialize (Hinv t e p). lia.
Qed.

Lemma run_calls_one_active ks st t0 :
  monotone t0 ks ->
  at_most_one_active t0 st ->
  at_most_one_active (last_time t0 ks) (run_calls cfg ks st).
Proof.
  revert st t0. induction ks as [| k ks IH]; intros st t0; simpl; [auto |].
  intros [Hk Hm] Hinv. apply IH; [exact Hm |].
  by apply (run_call_one_active k st t0).
Qed.

(** The record of a pair keeps its code value along any validations. *)
Lemma run_validations_keep_code ks st e p r :
  forallb is_validate ks = true ->
  find_code e p (codes st) = Some r ->
  exists r', find_code e p (codes (run_calls cfg ks st)) = Some r'
             /\ code r' = code r.
Proof.
  revert st r. induction ks as [| k ks IH]; intros st r; simpl; [eauto |].
  destruct k as [| env' e' p' c']; simpl; [discriminate |].
  intros Hv Hf.
  assert (H1 : exists r1,
             find_code e p
               (codes (validateAndConsume cfg env' e' p' c' st).2) = Some r1
             /\ code r1 = code r).
  { unfold validateAndConsume.
    destruct (decide ((e, p) = (e', p'))) as [[= <- <-] | Hne].
    - destruct (validate_codes_same (now env') e p c' (codes st) r Hf)
        as (r1 & H1 & H2 & _).
      destruct (validate_codes cfg (now env') e p c' (codes st)). eauto.
    - pose proof (validate_codes_other (now env') e p e' p' c' (codes st) Hne).
      destruct (validate_codes cfg (now env') e' p' c' (codes st)).
      simpl in *. exists r. split; congruence. }
  destruct H1 as (r1 & Hf1 & Hc1).
  destruct (IH _ r1 Hv Hf1) as (r' & Hf' & Hc'). exists r'. split; congruence.
Qed.

Lemma validateAndConsume_wrong_code env e p c st r :
  find_code e p (codes st) = Some r -> code r <> c ->
  (validateAndConsume cfg env e p c st).1 = false.
Proof.
  intros Hf Hne. unfold validateAndConsume.
  destruct (validate_codes_same (now env) e p c (codes st) r Hf)
    as (r' & _ & _ & _ & Htrue).
  destruct (validate_codes cfg (now env) e p c (codes st)) as [[] l1];
    [| reflexivity].
  simpl in *. destruct (Htrue eq_refl) as (_ & Hc & _). congruence.
Qed.

Lemma for_pair_fresh env e p : for_pair e p (fresh_code cfg env e p) = true.
Proof. apply for_pair_true. auto. Qed.

(** C4, as the model has it. Along any run of the issuer from the empty
    store, with a clock that does not run backwards, a pair has at most one
    active code at any time from the last call on. Right after
    [issue(email, purpose)] the only code of the pair that can be active is
    the new one: every earlier one is inactive from then on. From then on,
    through any validations, [validateAndConsume] of that pair answers false
    to every value other than the new code's; in particular to the value of
    an earlier code, unexpired or not, when the new draw differs from it. *)
Theorem one_active_code_per_pair :
  (forall t0 ks,
     monotone t0 ks ->
     forall t e p, (last_time t0 ks <= t)%Z ->
       (length (active_codes t e p
                  (codes (run_calls cfg ks empty_issuer))) <= 1)%nat)
  /\ (forall st env e p t r,
        (now env <= t)%Z ->
        In r (active_codes t e p (codes (issue cfg env e p st).2)) ->
        r = fresh_code cfg env e p)
  /\ (forall st env e p ks env' c,
        forallb is_validate ks = true ->
        c <> six_digits (draw env) ->
        (validateAndConsume cfg env' e p c
           (run_calls cfg ks (issue cfg env e p st).2)).1 = false).
Proof.
  split; [| split].
  - intros t0 ks Hm. apply (run_calls_one_active ks empty_issuer t0 Hm).
    intros t e p _. simpl. lia.
  - intros st env e p t r Ht. simpl.
    rewrite for_pair_fresh. simpl.
    fold (active_codes t e p (map (invalidate (now env) e p) (codes st))).
    rewrite active_codes_invalidated by exact Ht.
    destruct (active t (fresh_code cfg env e p)); simpl; intuition.
  - intros st env e p ks env' c Hv Hne.
    destruct (run_validations_keep_code ks (issue cfg env e p st).2 e p
                (fresh_code cfg env e p) Hv) as (r' & Hf & Hc).
    { simpl. by rewrite for_pair_fresh. }
    apply (validateAndConsume_wrong_code _ _ _ _ _ r' Hf).
    rewrite Hc. simpl. congruence.
Qed.

Import CodeLife.

Lemma check_true_iff t c r :
  (check cfg t c r).1 = true
  <-> state_of cfg t (Some r) = Active /\ code r = c.
Proof.
  unfold check, state_of.
  destruct (expired t r), (consumed r),
    (attempts_cap cfg <=? attempts r)%nat; simpl;
    try (split; [discriminate | by intros [? _]]).
  case_bool_decide; simpl; split; auto; try discriminate; by intros [_ ?].
Qed.

(** [validateAndConsume] answers true exactly when the record of the pair
    is active and holds the submitted value. *)
Lemma validate_codes_true_iff t e p c l :
  (validate_codes cfg t e p c l).1 = true
  <-> exists r, find_code e p l = Some r
                /\ state_of cfg t (Some r) = Active /\ code r = c.
Proof.
  induction l as [| r0 l IH]; simpl.
  - split; [discriminate | by intros (? & ? & _)].
  - destruct (for_pair e p r0).
    + pose proof (check_true_iff t c r0) as Hc.
      destruct (check cfg t c r0) as [ok r1]. simpl in *. rewrite Hc.
      split; [eauto | by intros (r & [= <-] & ?)].
    + destruct (validate_codes cfg t e p c l) as [ok l1]. simpl in *.
      exact IH.
Qed.

Lemma validateAndConsume_answer env e p c st :
  (validateAndConsume cfg env e p c st).1
  = (validate_codes cfg (now env) e p c (codes st)).1.
Proof.
  unfold validateAndConsume.
  by destruct (validate_codes cfg (now env) e p c (codes st)).
Qed.

Lemma evolves_to_refl r : evolves_to r r.
Proof. unfold evolves_to. auto 10. Qed.

Lemma evolves_to_trans r1 r2 r3 :
  evolves_to r1 r2 -> evolves_to r2 r3 -> evolves_to r1 r3.
Proof.
  unfold evolves_to.
  intros (A1 & A2 & A3 & A4 & A5 & A6 & A7) (B1 & B2 & B3 & B4 & B5 & B6 & B7).
  repeat split; try congruence; auto. lia.
Qed.

Lemma evolves_to_check t c r : evolves_to r (check cfg t c r).2.
Proof.
  unfold check.
  destruct (expired t r); [apply evolves_to_refl |].
  destruct (consumed r) eqn:Hc; [apply evolves_to_refl |].
  destruct (attempts_cap cfg <=? attempts r)%nat; [apply evolves_to_refl |].
  destruct (bool_decide (code r = c)); unfold evolves_to; simpl;
    repeat split; auto.
Qed.

Lemma evolves_to_invalidate t e p r : evolves_to r (invalidate t e p r).
Proof.
  unfold invalidate. destruct (for_pair e p r && active t r);
    [| apply evolves_to_refl].
  unfold evolves_to. simpl. repeat split; auto.
Qed.

(** A terminal record stays terminal however it evolves, the clock not
    running backwards. *)
Lemma evolves_to_terminal t t' r r' :
  evolves_to r r' -> (t <= t')%Z ->
  terminal (state_of cfg t (Some r)) = true ->
  terminal (state_of cfg t' (Some r')) = true.
Proof.
  intros (_ & _ & _ & _ & He & Hc & Ha) Ht.
  rewrite !terminal_state_of. unfold expired. rewrite He.
  intros H. apply orb_true_iff in H as [H | H];
    [apply orb_true_iff in H as [H | H] |].
  - by rewrite (Hc H).
  - apply Z.ltb_lt in H.
    assert ((expiresAt r <? t')%Z = true) as -> by (apply Z.ltb_lt; lia).
    by rewrite orb_true_r.
  - apply Nat.leb_le in H.
    assert ((attempts_cap cfg <=? attempts r')%nat = true) as ->
      by (apply Nat.leb_le; lia).
    by rewrite orb_true_r.
Qed.

Lemma evolves_to_pair e p r r' :
  evolves_to r r' -> for_pair e p r' = for_pair e p r.
Proof. intros (H1 & H2 & _). unfold for_pair. by rewrite H1, H2. Qed.

Lemma Forall2_evolves_refl l : Forall2 evolves_to l l.
Proof. induction l; constructor; auto using evolves_to_refl. Qed.

Lemma Forall2_evolves_trans l1 l2 l3 :
  Forall2 evolves_to l1 l2 -> Forall2 evolves_to l2 l3 ->
  Forall2 evolves_to l1 l3.
Proof.
  intros H. revert l3. induction H as [| r1 r2 l1 l2 Hr _ IH]; intros l3 H3.
  - inversion H3. constructor.
  - inversion H3 as [| ? r3 ? l3' Hr' Hl']; subst.
    constructor; [by eapply evolves_to_trans | auto].
Qed.

Lemma validate_codes_evolves t e p c l :
  Forall2 evolves_to l (validate_codes cfg t e p c l).2.
Proof.
  induction l as [| r0 l IH]; simpl; [constructor |].
  destruct (for_pair e p r0).
  - pose proof (evolves_to_check t c r0) as Hc.
    destruct (check cfg t c r0) as [ok r1]. simpl in *.
    constructor; [exact Hc | apply Forall2_evolves_refl].
  - destruct (validate_codes cfg t e p c l) as [ok l1]. simpl in *.
    constructor; [apply evolves_to_refl | exact IH].
Qed.

Lemma invalidate_all_evolves t e p l :
  Forall2 evolves_to l (map (invalidate t e p) l).
Proof.
  induction l as [| r0 l IH]; simpl; constructor;
    auto using evolves_to_invalidate.
Qed.

Lemma Forall2_evolves_elem l1 l2 r' :
  Forall2 evolves_to l1 l2 -> r' ∈ l2 ->
  exists r, r ∈ l1 /\ evolves_to r r'.
Proof.
  induction 1 as [| r1 r2 l1 l2 Hr _ IH]; intros Hin.
  - by apply elem_of_nil in Hin.
  - apply elem_of_cons in Hin as [-> | Hin].
    + exists r1. split; [left | exact Hr].
    + destruct (IH Hin) as (r & ? & ?). exists r. split; [by right | done].
Qed.

Lemma find_code_app e p l1 l2 :
  find_code e p (l1 ++ l2)
  = match find_code e p l1 with
    | Some r => Some r
    | None => find_code e p l2
    end.
Proof.
  induction l1 as [| r0 l1 IH]; simpl; [reflexivity |].
  by destruct (for_pair e p r0).
Qed.

Lemma find_code_elem e p l r :
  find_code e p l = Some r -> r ∈ l /\ for_pair e p r = true.
Proof.
  induction l as [| r0 l IH]; simpl; [discriminate |].
  destruct (for_pair e p r0) eqn:Hp.
  - intros [= <-]. split; [left | exact Hp].
  - intros H. destruct (IH H). split; [by right | done].
Qed.

Lemma find_code_evolves e p l1 l2 r :
  Forall2 evolves_to l1 l2 -> find_code e p l1 = Some r ->
  exists r', find_code e p l2 = Some r' /\ evolves_to r r'.
Proof.
  induction 1 as [| r1 r2 l1 l2 Hr _ IH]; simpl; [discriminate |].
  rewrite (evolves_to_pair e p r1 r2 Hr).
  destruct (for_pair e p r1); [| exact IH].
  intros [= <-]. eauto.
Qed.

(** One call leaves every stored record in place, evolved, and puts at
    most the freshly issued record on top. *)
Lemma run_call_grows k st :
  exists pre kept,
    codes (run_call cfg k st).2 = (pre ++ kept)%list
    /\ Forall2 evolves_to (codes st) kept
    /\ forall r, r ∈ pre ->
         exists env, k = CallIssue env (otc_email r) (purpose r).
Proof.
  destruct k as [env e p | env e p c]; simpl.
  - exists [fresh_code cfg env e p], (map (invalidate (now env) e p) (codes st)).
    split; [reflexivity |]. split; [apply invalidate_all_evolves |].
    intros r Hr. apply list_elem_of_singleton in Hr as ->. eauto.
  - exists [], (validateAndConsume cfg env e p c st).2.(codes).
    split; [reflexivity |]. split.
    + unfold validateAndConsume.
      pose proof (validate_codes_evolves (now env) e p c (codes st)) as H.
      by destruct (validate_codes cfg (now env) e p c (codes st)).
    + intros r Hr. by apply elem_of_nil in Hr.
Qed.

(** A run leaves every stored record in place, evolved, under the records
    issued during the run. *)
Lemma run_calls_grows ks st :
  exists newer kept,
    codes (run_calls cfg ks st) = (newer ++ kept)%list
    /\ Forall2 evolves_to (codes st) kept
    /\ forall r, r ∈ newer -> issued_in (otc_email r) (purpose r) ks.
Proof.
  revert st. induction ks as [| k ks IH]; intros st; simpl.
  - exists [], (codes st). split; [reflexivity |].
    split; [apply Forall2_evolves_refl |].
    intros r Hr. by apply elem_of_nil in Hr.
  - destruct (run_call_grows k st) as (pre & kept0 & Hc0 & Hk0 & Hpre).
    destruct (IH (run_call cfg k st).2) as (newer1 & kept1 & Hc1 & Hk1 & Hn1).
    rewrite Hc0 in Hk1.
    apply Forall2_app_inv_l in Hk1 as (k1 & k2 & Hp1 & Hk2 & ->).
    exists (newer1 ++ k1)%list, k2.
    split; [by rewrite Hc1, app_assoc |].
    split; [by eapply Forall2_evolves_trans |].
    intros r Hr. apply elem_of_app in Hr as [Hr | Hr].
    + destruct (Hn1 r Hr) as [env Hin]. exists env. by right.
    + destruct (Forall2_evolves_elem _ _ _ Hp1 Hr) as (r0 & Hr0 & He).
      destruct (Hpre r0 Hr0) as [env ->].
      destruct He as (-> & -> & _). exists env. left.
Qed.

(** Once the record of a pair is terminal, only a fresh issue for the pair
    lets a validation of the pair answer true again. *)
Lemma terminal_until_issued t e p r st ks env c :
  find_code e p (codes st) = Some r ->
  terminal (state_of cfg t (Some r)) = true ->
  (t <= now env)%Z ->
  (validateAndConsume cfg env e p c (run_calls cfg ks st)).1 = true ->
  issued_in e p ks.
Proof.
  intros Hf Hd Ht Hok.
  rewrite validateAndConsume_answer in Hok.
  apply validate_codes_true_iff in Hok as (r' & Hf' & Ha & _).
  destruct (run_calls_grows ks st) as (newer & kept & Hc & Hk & Hn).
  rewrite Hc, find_code_app in Hf'.
  destruct (find_code e p newer) as [x |] eqn:Hx.
  - injection Hf' as ->. apply find_code_elem in Hx as [Hin Hp].
    apply for_pair_true in Hp as [<- <-]. by apply Hn.
  - destruct (find_code_evolves e p _ _ r Hk Hf) as (r'' & Hf'' & He).
    rewrite Hf'' in Hf'. injection Hf' as ->.
    pose proof (evolves_to_terminal t (now env) r r' He Ht Hd) as Hd'.
    rewrite Ha in Hd'. discriminate.
Qed.

(** C3, as the model has it. Consumed, Expired and Exhausted are terminal
    for every stored code. [validateAndConsume] answers true exactly when
    the newest record of the pair is Active and holds the submitted value,
    and that record is consumed by the answer. Along any run of issues and
    validations every stored record stays in the store as the same code,
    a consumed one consumed, attempts only growing, so a terminal record is
    terminal at every later time. A terminal record never grants a match:
    if its own value is answered true, the newest record of its pair is
    another, active record with the same value. Once the record of a pair
    is terminal, and once a validation of the pair has answered true, a
    later validation of the pair answers true only after a fresh issue for
    that pair; on a terminal record (consumed, expired or exhausted) the
    answer to its own correct value is false and nothing changes. *)
Theorem terminal_codes_stay_terminal :
  (forall env e p c st,
     (validateAndConsume cfg env e p c st).1 = true
     <-> exists r, find_code e p (codes st) = Some r
                   /\ state_of cfg (now env) (Some r) = Active
                   /\ code r = c)
  /\ (forall env e p c st r,
        find_code e p (codes st) = Some r ->
        (validateAndConsume cfg env e p c st).1 = true ->
        find_code e p (codes (validateAndConsume cfg env e p c st).2)
        = Some (mark_consumed r))
  /\ (forall ks st,
        exists newer kept,
          codes (run_calls cfg ks st) = (newer ++ kept)%list
          /\ Forall2 (fun r r' =>
                        evolves_to r r'
                        /\ forall t t', (t <= t')%Z ->
                             terminal (state_of cfg t (Some r)) = true ->
                             terminal (state_of cfg t' (Some r')) = true)
               (codes st) kept
          /\ forall r, r ∈ newer -> issued_in (otc_email r) (purpose r) ks)
  /\ (forall env st r,
        r ∈ codes st ->
        terminal (state_of cfg (now env) (Some r)) = true ->
        (validateAndConsume cfg env (otc_email r) (purpose r) (code r) st).1
        = true ->
        exists r', find_code (otc_email r) (purpose r) (codes st) = Some r'
                   /\ r' <> r
                   /\ state_of cfg (now env) (Some r') = Active
                   /\ code r' = code r)
  /\ (forall t e p r st ks env c,
        find_code e p (codes st) = Some r ->
        terminal (state_of cfg t (Some r)) = true ->
        (t <= now env)%Z ->
        (validateAndConsume cfg env e p c (run_calls cfg ks st)).1 = true ->
        issued_in e p ks)
  /\ (forall env e p c st ks env' c',
        (validateAndConsume cfg env e p c st).1 = true ->
        (validateAndConsume cfg env' e p c'
           (run_calls cfg ks (validateAndConsume cfg env e p c st).2)).1
        = true ->
        issued_in e p ks)
  /\ (forall env e p st r,
        find_code e p (codes st) = Some r ->
        consumed r = true \/ expired (now env) r = true
        \/ (attempts_cap cfg <= attempts r)%nat ->
        validateAndConsume cfg env e p (code r) st = (false, st)).
Proof.
  assert (Hiff : forall env e p c st,
             (validateAndConsume cfg env e p c st).1 = true
             <-> exists r, find_code e p (codes st) = Some r
                           /\ state_of cfg (now env) (Some r) = Active
                           /\ code r = c).
  { intros. rewrite validateAndConsume_answer.
    apply validate_codes_true_iff. }
  assert (Hcons : forall env e p c st r,
             find_code e p (codes st) = Some r ->
             (validateAndConsume cfg env e p c st).1 = true ->
             find_code e p (codes (validateAndConsume cfg env e p c st).2)
             = Some (mark_consumed r)).
  { intros env e p c st r Hf Hok. unfold validateAndConsume in *.
    revert Hf Hok. generalize (codes st) as l.
    induction l as [| r0 l IH]; simpl; [discriminate |].
    destruct (for_pair e p r0) eqn:Hp.
    - intros [= ->]. pose proof (check_true_iff (now env) c r) as Hc.
      unfold check in *.
      destruct (expired (now env) r); [simpl; discriminate |].
      destruct (consumed r); [simpl; discriminate |].
      destruct (attempts_cap cfg <=? attempts r)%nat; [simpl; discriminate |].
      destruct (bool_decide (code r = c)); simpl; [| discriminate].
      intros _. unfold for_pair in *. simpl. by rewrite Hp.
    - destruct (validate_codes cfg (now env) e p c l) as [ok l1]. simpl in *.
      rewrite Hp. exact IH. }
  split; [exact Hiff |]. split; [exact Hcons |]. split; [| split; [| split]].
  - intros ks st.
    destruct (run_calls_grows ks st) as (newer & kept & Hc & Hk & Hn).
    exists newer, kept. split; [exact Hc |]. split; [| exact Hn].
    eapply Forall2_impl; [exact Hk |]. simpl. intros r r' He.
    split; [exact He |]. intros t t' Ht. by apply evolves_to_terminal.
  - intros env st r Hin Hd Hok.
    apply Hiff in Hok as (r' & Hf & Ha & Hc).
    exists r'. repeat split; auto.
    intros ->. rewrite Ha in Hd. discriminate.
  - exact terminal_until_issued.
  - split.
    + intros env e p c st ks env' c' Hok Hok'.
      pose proof Hok as Hr. apply Hiff in Hr as (r & Hf & _).
      apply (terminal_until_issued (now env') e p (mark_consumed r)
               (validateAndConsume cfg env e p c st).2 ks env' c');
        [by apply Hcons | by apply consumed_terminal | lia | exact Hok'].
    + intros env e p st r Hf H.
      apply (validateAndConsume_terminal _ _ _ _ _ _ Hf).
      rewrite terminal_state_of.
      destruct H as [-> | [-> | H]]; [reflexivity | by rewrite orb_true_r |].
      apply Nat.leb_le in H. rewrite H. by rewrite orb_true_r.
Qed.

End IssuerFacts.

Example issue_stores_six_digits :
  Recovery.codes Samples.issued = [Samples.first_code]
  /\ Recovery.outbox Samples.issued = [("a@x.com", "123456")]
  /\ Recovery.six_digits 42 = "000042".
Proof. repeat split; vm_compute; reflexivity. Qed.

(** Five wrong guesses exhaust the code: the sixth attempt, with the right
    value, fails. *)
Example five_wrong_guesses_exhaust :
  let st := Recovery.run_calls Samples.cfg
              (map (fun t => Samples.guess t "000000") [1; 2; 3; 4; 5]%Z)
              Samples.issued in
  Recovery.state_of Samples.cfg 6
    (Recovery.find_code Samples.alice Recovery.forget_password
       (Recovery.codes st)) = Recovery.Exhausted
  /\ (Recovery.run_call Samples.cfg (Samples.guess 6 "123456") st).1 = false.
Proof. split; vm_compute; reflexivity. Qed.

(** C3, as stated, fails when a later draw repeats a consumed code: alice's
    first code has answered true and is consumed, a second code is issued
    with the same six digits, and the value of the first code is answered
    true once more (it is the value of the new code too). The first record
    is still in the store, consumed. *)
Lemma consumed_value_validates_again :
  (Recovery.validateAndConsume Samples.cfg (Samples.at_time 1 0)
     Samples.alice Recovery.forget_password
     (Recovery.code Samples.first_code) Samples.issued).1 = true
  /\ Recovery.codes Cases.consumed_then_reissued
     = [Recovery.mkCode Samples.alice "forget-password" "123456" 1000 601000
          false 0;
        Recovery.mark_consumed Samples.first_code]
  /\ (Recovery.validateAndConsume Samples.cfg (Samples.at_time 2000 0)
        Samples.alice Recovery.forget_password
        (Recovery.code Samples.first_code) Cases.consumed_then_reissued).1
     = true.
Proof. repeat split; vm_compute; reflexivity. Qed.

Lemma terminal_codes_stay_terminal_witness :
  let st1 := (Recovery.validateAndConsume Samples.cfg (Samples.at_time 1 0)
                Samples.alice Recovery.forget_password "123456"
                Samples.issued).2 in
  Recovery.validateAndConsume Samples.cfg (Samples.at_time 2 0) Samples.alice
    Recovery.forget_password "123456" st1 = (false, st1).
Proof.
  apply (proj2 (proj2 (proj2 (proj2 (proj2 (proj2
           (terminal_codes_stay_terminal Samples.cfg))))))
           (Samples.at_time 2 0) Samples.alice Recovery.forget_password
           (Recovery.validateAndConsume Samples.cfg (Samples.at_time 1 0)
              Samples.alice Recovery.forget_password "123456"
              Samples.issued).2
           (Recovery.mark_consumed Samples.first_code)).
  - reflexivity.
  - left. reflexivity.
Defined.

(** C4, as stated, fails when the second draw repeats the first: the first
    code, not expired at time 2000, is invalidated by the second issue, yet
    its value, submitted correctly, is answered true (it is the value of the
    new code too). *)
Lemma reissued_same_value_validates :
  let st2 := (Recovery.issue Samples.cfg (Samples.at_time 1000 123456)
                Samples.alice Recovery.forget_password Samples.issued).2 in
  Recovery.codes st2
  = [Recovery.mkCode Samples.alice "forget-password" "123456" 1000 601000
       false 0;
     Recovery.mark_consumed Samples.first_code]
  /\ Recovery.expired 2000 Samples.first_code = false
  /\ (Recovery.validateAndConsume Samples.cfg (Samples.at_time 2000 0)
        Samples.alice Recovery.forget_password
        (Recovery.code Samples.first_code) st2).1 = true.
Proof. repeat split; vm_compute; reflexivity. Qed.

(** * Properties of the recovery flow *)

Example reset_scenario :
  let r := Recovery.commitReset Samples.cfg (Samples.at_time 2000 0)
             Samples.alice "123456" "longenough1" Samples.site in
  r.1 = Recovery.Success
  /\ Recovery.passwordHash <$> Recovery.findByEmail Samples.alice r.2
     = Some "hash:longenough1"
  /\ Recovery.resolve 3000 "tok-a" (Recovery.sessions r.2) = None
  /\ Recovery.resolve 3000 "tok-b" (Recovery.sessions r.2)
     = Some Samples.bob_session.
Proof. repeat split; vm_compute; reflexivity. Qed.

Section RecoveryFacts.

Import Recovery.

Variable cfg : Config.

Lemma invalidateAll_swept env uid (ss : gmap string Session) tok s :
  ss !! tok = Some s -> userId s = uid -> sweep_fails env tok = false ->
  (invalidateAll env uid ss).2 !! tok = None.
Proof.
  intros Hs Hu Hf. simpl. apply map_lookup_filter_None. right.
  intros s' Hs'. rewrite Hs in Hs'. injection Hs' as <-.
  unfold swept. simpl. rewrite Hu, Hf, bool_decide_eq_true_2 by reflexivity.
  discriminate.
Qed.

Lemma invalidateAll_kept env uid (ss : gmap string Session) tok s :
  ss !! tok = Some s -> userId s <> uid \/ sweep_fails env tok = true ->
  (invalidateAll env uid ss).2 !! tok = Some s.
Proof.
  intros Hs H. simpl. apply map_lookup_filter_Some. split; [exact Hs |].
  unfold swept. simpl. destruct H as [Hu | Hf].
  - by rewrite bool_decide_eq_false_2.
  - rewrite Hf. apply andb_false_r.
Qed.

Lemma resolve_absent t tok (ss : gmap string Session) :
  ss !! tok = None -> resolve t tok ss = None.
Proof. intros H. unfold resolve. by rewrite H. Qed.

Lemma set_hash_written uid h (cs : gmap string User) e u :
  cs !! e = Some u -> id u = uid ->
  passwordHash <$> (set_hash uid h <$> cs) !! e = Some h.
Proof.
  intros Hu Hid. rewrite lookup_fmap, Hu. simpl. unfold set_hash.
  by rewrite bool_decide_eq_true_2.
Qed.

(** The sweep left a session of the user behind exactly when the
    invalidation of one of them failed. *)
Lemma sweep_incomplete_iff env uid (ss : gmap string Session) :
  (size (filter (fun kv => swept env uid kv = true) ss)
   <? sessions_of uid ss)%nat = true
  <-> exists tok s, ss !! tok = Some s /\ userId s = uid
                    /\ sweep_fails env tok = true.
Proof.
  unfold sessions_of.
  assert (Hsub : filter (fun kv => swept env uid kv = true) ss
                 ⊆ filter (fun kv : string * Session => userId kv.2 = uid) ss).
  { apply map_filter_subseteq_ext. intros tok s _. unfold swept. simpl.
    intros H. apply andb_true_iff in H as [H _].
    by apply bool_decide_eq_true in H. }
  rewrite Nat.ltb_lt. split.
  - intros Hlt.
    assert (Hstrict : filter (fun kv => swept env uid kv = true) ss
                      ⊂ filter (fun kv : string * Session => userId kv.2 = uid)
                          ss).
    { split; [exact Hsub |]. intros Hrev.
      apply map_subseteq_size in Hrev. lia. }
    apply map_subset_alt in Hstrict as (_ & tok & Hnone & [s Hsome]).
    apply map_lookup_filter_Some in Hsome as [Hs Hu]. simpl in Hu.
    exists tok, s. split; [exact Hs |]. split; [exact Hu |].
    apply map_lookup_filter_None in Hnone as [Hnone | Hnone]; [congruence |].
    specialize (Hnone s Hs). unfold swept in Hnone. simpl in Hnone.
    rewrite bool_decide_eq_true_2 in Hnone by exact Hu. simpl in Hnone.
    by destruct (sweep_fails env tok).
  - intros (tok & s & Hs & Hu & Hf). apply map_subset_size.
    apply map_subset_alt. split; [exact Hsub |]. exists tok. split.
    + apply map_lookup_filter_None. right. intros s' Hs'.
      unfold swept. simpl. rewrite Hf, andb_false_r. discriminate.
    + exists s. apply map_lookup_filter_Some. by split.
Qed.

(** C5, as the model has it. [commitReset] answers Success exactly when the
    new password has at least 8 characters, the code was validated (and
    consumed), the account exists and the credential write went through:
    whether the session sweep fails has no part in it. When it answers
    Success, the user's record holds the hash of the new password and the
    user's sessions have been swept: every token of the user whose
    invalidation did not fail resolves to absent from then on, no other
    session is touched, and when the sweep has no failure every token of
    the user resolves to absent. A sweep that leaves a session of the user
    behind is written to the log, and nothing else is. *)
Theorem commit_reset_success env e c pw sys :
  ((commitReset cfg env e c pw sys).1 = Success
   <-> (8 <= String.length pw)%nat
       /\ (validateAndConsume cfg env e forget_password c (issuer sys)).1
          = true
       /\ is_Some (findByEmail e sys)
       /\ write_ok env = true)
  /\ (forall u sys',
        findByEmail e sys = Some u ->
        commitReset cfg env e c pw sys = (Success, sys') ->
        (validateAndConsume cfg env e forget_password c (issuer sys)).1 = true
        /\ issuer sys'
           = (validateAndConsume cfg env e forget_password c (issuer sys)).2
        /\ write_ok env = true
        /\ passwordHash <$> findByEmail e sys' = Some (hash cfg pw)
        /\ (forall tok s t,
              sessions sys !! tok = Some s -> userId s = id u ->
              sweep_fails env tok = false ->
              resolve t tok (sessions sys') = None)
        /\ (forall tok s,
              sessions sys !! tok = Some s ->
              userId s <> id u \/ sweep_fails env tok = true ->
              sessions sys' !! tok = Some s)
        /\ ((forall tok, sweep_fails env tok = false) ->
            forall tok s t,
              sessions sys !! tok = Some s -> userId s = id u ->
              resolve t tok (sessions sys') = None)
        /\ ((exists tok s, sessions sys !! tok = Some s /\ userId s = id u
                           /\ sweep_fails env tok = true) ->
            log sys'
            = (log sys ++ [Error ["SessionSweepIncomplete"; id u]])%list)
        /\ ((forall tok s, sessions sys !! tok = Some s -> userId s = id u ->
                           sweep_fails env tok = false) ->
            log sys' = log sys)).
Proof.
  split.
  - unfold commitReset.
    destruct (String.length pw <? 8)%nat eqn:Hlen.
    { apply Nat.ltb_lt in Hlen. simpl. split; [discriminate |].
      intros [? _]. lia. }
    apply Nat.ltb_ge in Hlen.
    destruct (validateAndConsume cfg env e forget_password c (issuer sys))
      as [ok iss].
    destruct ok; simpl;
      [| split; [discriminate | by intros (_ & ? & _)]].
    unfold findByEmail. simpl.
    destruct (credentials sys !! e) as [u |] eqn:Hu;
      [| split; [discriminate | by intros (_ & _ & [? ?] & _)]].
    unfold updatePassword.
    destruct (write_ok env); simpl;
      [| split; [discriminate | by intros (_ & _ & _ & ?)]].
    split; [eauto |]. reflexivity.
  - intros u sys' Hu. unfold commitReset.
    destruct (String.length pw <? 8)%nat; [discriminate |].
    destruct (validateAndConsume cfg env e forget_password c (issuer sys))
      as [ok iss].
    destruct ok; simpl; [| discriminate].
    unfold findByEmail in *. simpl. rewrite Hu.
    unfold updatePassword. destruct (write_ok env); simpl; [| discriminate].
    intros [= <-]. simpl.
    assert (Hs : forall tok s t,
               sessions sys !! tok = Some s -> userId s = id u ->
               sweep_fails env tok = false ->
               resolve t tok
                 (filter (fun kv => swept env (id u) kv = false)
                    (sessions sys))
               = None).
    { intros tok s t H1 H2 H3. apply resolve_absent.
      apply (invalidateAll_swept env (id u) (sessions sys) tok s H1 H2 H3). }
    pose proof (sweep_incomplete_iff env (id u) (sessions sys)) as Hlog.
    split; [reflexivity |]. split; [reflexivity |]. split; [reflexivity |].
    split; [by apply (set_hash_written (id u) _ _ e u) |].
    split; [exact Hs |].
    split.
    { intros tok s H1 H2.
      apply (invalidateAll_kept env (id u) (sessions sys) tok s H1 H2). }
    split; [intros Hall tok s t H1 H2; by apply (Hs tok s t) |].
    split.
    + intros Hex. apply Hlog in Hex. by rewrite Hex.
    + intros Hall.
      assert (Hn : (size (filter (fun kv => swept env (id u) kv = true)
                            (sessions sys))
                    <? sessions_of (id u) (sessions sys))%nat = false).
      { apply not_true_is_false. intros Hlt.
        apply Hlog in Hlt as (tok & s & H1 & H2 & H3).
        rewrite (Hall tok s H1 H2) in H3. discriminate. }
      by rewrite Hn.
Qed.

(** C6. A request for [POST /api/auth/otp/send] that comes through the
    gateway and the catch-all auth route is answered 202 with the uniform
    message, whatever the stores hold and whoever asks: the response is the
    same for an email with an account and for one without. When the email
    has no account, the stores and the issuer are left as they were: no
    code is issued and nothing is dispatched. *)
Theorem otp_send_uniform gs hdrs env req console sys :
  method req = "POST" ->
  url req = "/api/auth/otp/send" ->
  let res := Gateway.handle gs (Gateway.mkContext (url req) hdrs)
               (fun _ => AuthRoute.ALL (handler cfg env) req)
               (console, sys) in
  res.1 = check_your_email
  /\ status res.1 = 202
  /\ Gateway.next_calls res.2 = 1
  /\ (findByEmail (field "email" req) sys = None ->
      (Gateway.world res.2).2 = sys)
  /\ (forall u, findByEmail (field "email" req) sys = Some u ->
      issuer (Gateway.world res.2).2
      = (issue cfg env (field "email" req) forget_password (issuer sys)).2).
Proof.
  intros Hm Hurl res.
  destruct (handle_cases gs (Gateway.mkContext (url req) hdrs)
              (fun _ => AuthRoute.ALL (handler cfg env) req) (console, sys))
    as [_ Hc].
  fold res in Hc. simpl in Hc. rewrite Hurl in Hc. simpl in Hc.
  destruct Hc as (Hr & Hw & Hn).
  unfold AuthRoute.ALL, handler in Hr, Hw. simpl in Hr, Hw.
  rewrite Hm, Hurl in Hr, Hw. simpl in Hr, Hw.
  unfold requestReset in Hr, Hw.
  destruct (findByEmail (field "email" req) sys) as [u |] eqn:Hf.
  - destruct (issue cfg env (field "email" req) forget_password (issuer sys))
      as [sent iss] eqn:Hi.
    simpl in Hr, Hw. rewrite Hr, Hw.
    repeat split; auto; discriminate.
  - simpl in Hr, Hw. rewrite Hr, Hw.
    repeat split; auto; discriminate.
Qed.

End RecoveryFacts.

Lemma commit_reset_success_witness :
  let sys' := (Recovery.commitReset Samples.cfg (Samples.at_time 2000 0)
                 Samples.alice "123456" "longenough1" Samples.site).2 in
  Recovery.passwordHash <$> Recovery.findByEmail Samples.alice sys'
  = Some "hash:longenough1"
  /\ Recovery.resolve 3000 "tok-a" (Recovery.sessions sys') = None.
Proof.
  pose proof (proj2 (commit_reset_success Samples.cfg
                       (Samples.at_time 2000 0) Samples.alice "123456"
                       "longenough1" Samples.site)
                Samples.alice_user
                (Recovery.commitReset Samples.cfg (Samples.at_time 2000 0)
                   Samples.alice "123456" "longenough1" Samples.site).2
                eq_refl eq_refl)
    as (_ & _ & _ & Hc & Hs & _).
  split; [exact Hc |].
  exact (Hs "tok-a" Samples.alice_session 3000%Z eq_refl eq_refl eq_refl).
Defined.

(** C5, as stated, fails when the sweep fails: the reset succeeds and the
    new hash is written, yet alice's earlier session token still resolves. *)
Lemma reset_leaves_session_when_sweep_fails :
  let r := Recovery.commitReset Samples.cfg (Samples.sweep_down 2000)
             Samples.alice "123456" "longenough1" Samples.site in
  Recovery.resolve 1000 "tok-a" (Recovery.sessions Samples.site)
  = Some Samples.alice_session
  /\ r.1 = Recovery.Success
  /\ Recovery.passwordHash <$> Recovery.findByEmail Samples.alice r.2
     = Some "hash:longenough1"
  /\ Recovery.resolve 3000 "tok-a" (Recovery.sessions r.2)
     = Some Samples.alice_session.
Proof. repeat split; vm_compute; reflexivity. Qed.

Lemma otp_send_uniform_witness :
  let ask e sys :=
    (Gateway.handle Samples.no_cookie
       (Gateway.mkContext "/api/auth/otp/send" [])
       (fun _ => AuthRoute.ALL
                   (Recovery.handler Samples.cfg (Samples.at_time 5000 654321))
                   (Samples.otp_send e))
       ([], sys)) in
  (ask Samples.alice Samples.site).1 = Recovery.check_your_email
  /\ (ask "nobody@x.com" Samples.site).1 = Recovery.check_your_email
  /\ (Gateway.world (ask "nobody@x.com" Samples.site).2).2 = Samples.site.
Proof.
  pose proof (otp_send_uniform Samples.cfg Samples.no_cookie []
                (Samples.at_time 5000 654321) (Samples.otp_send Samples.alice)
                [] Samples.site eq_refl eq_refl) as (Ha & _).
  pose proof (otp_send_uniform Samples.cfg Samples.no_cookie []
                (Samples.at_time 5000 654321)
                (Samples.otp_send "nobody@x.com")
                [] Samples.site eq_refl eq_refl) as (Hn & _ & _ & Hs & _).
  split; [exact Ha |]. split; [exact Hn |]. exact (Hs eq_refl).
Defined.

(** * The checks of the sign-up action, characterised *)

Section RegexFacts.

Import SignUp SignUpSyntax.

Implicit Types (r : Re) (s : jsstring) (c : N).

Lemma matches_nil_nullable r : matches r [] -> nullable r = true.
Proof.
  intros H. remember [] as s eqn:Hs. induction H; simpl; auto.
  - discriminate.
  - apply app_eq_nil in Hs as [-> ->]. by rewrite IHmatches1, IHmatches2.
  - by rewrite IHmatches.
  - rewrite IHmatches by assumption. apply orb_true_r.
Qed.

Lemma nullable_matches_nil r : nullable r = true -> matches r [].
Proof.
  induction r; simpl; intros H; try discriminate.
  - constructor.
  - apply andb_true_iff in H as [H1 H2].
    change (@nil N) with (@nil N ++ [])%list. constructor; auto.
  - apply orb_true_iff in H as [H | H].
    + apply matches_alt_l; auto.
    + apply matches_alt_r; auto.
  - constructor.
Qed.

Lemma deriv_sound c r s : matches (deriv c r) s -> matches r (c :: s).
Proof.
  revert s. induction r; simpl; intros s H.
  - inversion H.
  - inversion H.
  - destruct (p c) eqn:Hp; inversion H; subst. by constructor.
  - destruct (nullable r1) eqn:Hn.
    + inversion H as [| | | ? ? ? H1 | ? ? ? H2 | |]; subst.
      * inversion H1; subst.
        change (c :: (s1 ++ s2))%list with ((c :: s1) ++ s2)%list.
        constructor; auto.
      * change (c :: s) with ([] ++ c :: s)%list.
        constructor; auto using nullable_matches_nil.
    + inversion H; subst.
      change (c :: (s1 ++ s2))%list with ((c :: s1) ++ s2)%list.
      constructor; auto.
  - inversion H; subst.
    + apply matches_alt_l; auto.
    + apply matches_alt_r; auto.
  - inversion H; subst.
    change (c :: (s1 ++ s2))%list with ((c :: s1) ++ s2)%list.
    constructor; auto.
Qed.

Lemma deriv_complete c r s : matches r (c :: s) -> matches (deriv c r) s.
Proof.
  intros H. remember (c :: s) as s' eqn:Hs. revert c s Hs.
  induction H; intros c0 s0 Hs; simpl.
  - discriminate.
  - injection Hs as -> <-. rewrite H. constructor.
  - destruct s1 as [| c1 s1'].
    + simpl in Hs. subst s2.
      rewrite (matches_nil_nullable _ H). apply matches_alt_r. auto.
    + injection Hs as -> <-.
      destruct (nullable r1).
      * apply matches_alt_l. constructor; auto.
      * constructor; auto.
  - apply matches_alt_l; auto.
  - apply matches_alt_r; auto.
  - discriminate.
  - destruct s1 as [| c1 s1'].
    + simpl in Hs. exact (IHmatches2 _ _ Hs).
    + injection Hs as -> <-. constructor; auto.
Qed.

(** [test] decides the language of the expression. *)
Lemma test_matches r s : test r s = true <-> matches r s.
Proof.
  revert r. induction s as [| c s IH]; intros r; simpl.
  - split; [apply nullable_matches_nil | apply matches_nil_nullable].
  - rewrite IH. split; [apply deriv_sound | apply deriv_complete].
Qed.

Lemma matches_star_cls p s :
  matches (Star (Cls p)) s <-> Forall (fun c => p c = true) s.
Proof.
  split.
  - intros H. remember (Star (Cls p)) as r eqn:Hr.
    induction H; try discriminate; [constructor |].
    injection Hr as ->. inversion H; subst. simpl. constructor; auto.
  - induction 1 as [| c s Hc _ IH]; [constructor |].
    change (c :: s) with ([c] ++ s)%list. constructor; [by constructor | auto].
Qed.

Lemma matches_plus_cls p s :
  matches (Plus (Cls p)) s <-> s <> [] /\ Forall (fun c => p c = true) s.
Proof.
  unfold Plus. split.
  - intros H. inversion H as [| | ? ? ? ? H1 H2 | | | |]; subst.
    inversion H1; subst. apply matches_star_cls in H2.
    split; [discriminate | by constructor].
  - intros [Hne Hall]. destruct Hall as [| c s Hc Hs]; [done |].
    change (c :: s) with ([c] ++ s)%list.
    constructor; [by constructor | by apply matches_star_cls].
Qed.

Lemma matches_char k s :
  matches (Cls (N.eqb k)) s <-> s = [k].
Proof.
  split.
  - intros H. inversion H as [| ? c Hc | | | | |]; subst.
    apply N.eqb_eq in Hc. by subst.
  - intros ->. constructor. apply N.eqb_refl.
Qed.

Lemma test_email_shape s : test email_re s = true <-> email_shape s.
Proof.
  rewrite test_matches. unfold email_re, email_shape, word. split.
  - intros H.
    inversion H as [| | ? ? a s2 Ha H2 | | | |]; subst.
    inversion H2 as [| | ? ? at_ s3 Hat H3 | | | |]; subst.
    inversion H3 as [| | ? ? b s4 Hb H4 | | | |]; subst.
    inversion H4 as [| | ? ? dot c Hdot Hc | | | |]; subst.
    apply matches_char in Hat, Hdot. subst.
    apply matches_plus_cls in Ha, Hb, Hc.
    exists a, b, c. auto.
  - intros (a & b & c & -> & Ha & Hb & Hc).
    apply matches_plus_cls in Ha, Hb, Hc.
    repeat (constructor; auto); by apply matches_char.
Qed.

(** X1. The email check of the sign-up action accepts exactly the strings
    of the form local@domain.tld, where the three parts are non-empty and
    hold neither white space nor [@]; a value that is not a string is never
    accepted. *)
Theorem email_re_accepts_exactly (v : JValue) :
  js_test email_re v = true <-> exists s, v = JString s /\ email_shape s.
Proof.
  destruct v as [| | | | s |]; simpl;
    try (split; [discriminate | by intros (? & ? & _)]).
  rewrite test_email_shape. split; [eauto |].
  by intros (s' & [= <-] & H).
Qed.

End RegexFacts.

Section ValidateFacts.

Import SignUp SignUpSyntax.

Implicit Types (s : jsstring) (b : SignUpRequestBody).

Lemma trim_start_nil s :
  trim_start s = [] <-> Forall (fun c => is_space c = true) s.
Proof.
  induction s as [| c s IH]; simpl; [by split |].
  destruct (is_space c) eqn:Hc.
  - rewrite IH. split; [by constructor | by inversion 1].
  - split; [discriminate |]. inversion 1; congruence.
Qed.

Lemma trim_start_head s c s' :
  trim_start s = c :: s' -> is_space c = false.
Proof.
  induction s as [| c0 s IH]; simpl; [discriminate |].
  destruct (is_space c0) eqn:Hc; [exact IH |]. by intros [= <- _].
Qed.

(** [trim] leaves nothing exactly of the strings that are all white space. *)
Lemma trim_nil s :
  trim s = [] <-> Forall (fun c => is_space c = true) s.
Proof.
  rewrite <- trim_start_nil. unfold trim. split.
  - intros H. apply (f_equal (@rev N)) in H. rewrite rev_involutive in H.
    simpl in H. apply trim_start_nil in H.
    destruct (trim_start s) as [| c t] eqn:Ht; [reflexivity |].
    apply trim_start_head in Ht. apply Forall_rev in H.
    rewrite rev_involutive in H. inversion H; congruence.
  - intros ->. reflexivity.
Qed.

Lemma not_blank_iff s :
  (length (trim s) =? 0)%nat = false
  <-> Exists (fun c => is_space c = false) s.
Proof.
  rewrite Nat.eqb_neq, length_zero_iff_nil, trim_nil.
  rewrite <- Exists_Forall_neg.
  - split; intros H; eapply Exists_impl; try exact H; simpl; intros c;
      destruct (is_space c); congruence.
  - intros c. destruct (is_space c); auto.
Qed.

Lemma set_error_nil_iff cond key message errors :
  set_error cond key message errors = [] <-> cond = false /\ errors = [].
Proof.
  split; [apply set_error_nil |]. by intros [-> ->].
Qed.

Lemma strict_eq_string v s :
  strict_eq (JString s) v = true <-> v = JString s.
Proof.
  destruct v; simpl; try (split; [discriminate | congruence]).
  rewrite bool_decide_eq_true. split; congruence.
Qed.

Lemma strict_eq_true v : strict_eq v (JBool true) = true <-> v = JBool true.
Proof.
  destruct v as [| | [] | | |]; simpl; split; congruence.
Qed.

Lemma validate_nil_well_formed b : validate b = [] <-> well_formed b.
Proof.
  unfold validate, well_formed.
  rewrite !set_error_nil_iff, !orb_false_iff, !negb_false_iff.
  split.
  - intros (Ht & Hc & ((_ & Hps) & Hpl) & ((_ & Hes) & Het)
            & ((_ & Hns) & Hnl) & _).
    destruct (name b) as [| | | | n |]; try discriminate.
    destruct (email b) as [| | | | e |]; try discriminate.
    destruct (password b) as [| | | | pw |]; try discriminate.
    simpl in *. exists n, e, pw.
    apply strict_eq_true in Ht. apply strict_eq_string in Hc.
    apply not_blank_iff in Hnl. apply test_email_shape in Het.
    apply Nat.ltb_ge in Hpl. auto 10.
  - intros (n & e & pw & -> & Hn & -> & He & -> & Hp & -> & ->). simpl.
    assert (n <> []) by (by destruct Hn).
    assert (e <> []).
    { destruct He as (a & ? & ? & -> & [Ha _] & _). by destruct a. }
    assert (pw <> []) by (destruct pw; simpl in Hp; [lia | done]).
    rewrite (bool_decide_eq_false_2 (pw = [])), (bool_decide_eq_false_2 (e = [])),
      (bool_decide_eq_false_2 (n = [])) by assumption.
    rewrite bool_decide_eq_true_2 by reflexivity. simpl.
    apply not_blank_iff in Hn. apply test_email_shape in He.
    apply Nat.ltb_ge in Hp. auto 10.
Qed.

(** X2. The five checks of the sign-up action report nothing exactly for
    the submissions whose name is a string with a character that is not
    white space, whose email is a string of the form local@domain.tld,
    whose password is a string of at least 8 code units, whose
    confirmation is that same string, and whose terms are [true]. What
    they report has at most one entry per field, in the order name, email,
    password, confirmPassword, terms. *)
Theorem validate_accepts_exactly b :
  (validate b = [] <-> well_formed b)
  /\ sublist (map fst (validate b)) error_keys.
Proof.
  split; [apply validate_nil_well_formed |].
  unfold validate, set_error, error_keys.
  repeat match goal with
         | |- context [if ?c then _ else _] => destruct c
         end; simpl;
    repeat first [apply sublist_nil | apply sublist_skip | apply sublist_cons].
Qed.

Lemma validate_dec b : validate b = nil \/ validate b <> nil.
Proof. destruct (validate b); [by left | by right]. Qed.

Context {Store : Type}.
Implicit Types (f g : SignUpEmailBody -> Store -> Outcome unit * Store)
  (st : St Store) (req : ParsedJson).

Lemma POST_invalid f body st :
  validate body <> [] ->
  POST f (JsonValue body) st
  = (Returns (json_response 400
                (JsonObject [("errors", JsonObject (validate body))])), st).
Proof.
  intros H. unfold POST. destruct (validate body); [done | reflexivity].
Qed.

Lemma POST_valid f body st :
  validate body = [] ->
  POST f (JsonValue body) st
  = match f (sign_up_call body) (store st) with
    | (Throws error, store') =>
        let (r, st') :=
          on_sign_up_error error
            {| store := store'; console := console st |} in
        (Returns r, st')
    | (Returns _, store') =>
        (Returns (json_response 200 (JsonObject [("success", JsonTrue)])),
         {| store := store'; console := console st |})
    end.
Proof. intros H. unfold POST. rewrite H. reflexivity. Qed.

(** X3. A request whose body is not JSON, or whose submission is not
    well formed, is answered 400 without the auth library being called:
    the store and the console are left as they were, and the outcome is the
    same whatever the sign-up call would do. *)
Theorem post_rejects_before_sign_up f g req st :
  req = JsonSyntaxError
  \/ (exists body, req = JsonValue body /\ ~ well_formed body) ->
  exists r, POST f req st = (Returns r, st)
            /\ status r = 400
            /\ POST g req st = POST f req st.
Proof.
  intros [-> | (body & -> & Hb)].
  - eexists. simpl. eauto.
  - rewrite <- validate_nil_well_formed in Hb.
    rewrite !POST_invalid by assumption. eauto.
Qed.

(** X4. Whatever the request and the auth library do, a response of the
    sign-up action has status 200, 400, 409 or 500. It is 200 exactly when
    the submission is well formed and the sign-up call returned, and 409
    exactly when the submission is well formed and the call threw an
    APIError of status UNPROCESSABLE_ENTITY. *)
Theorem post_status f req st r :
  (POST f req st).1 = Returns r ->
  status r ∈ [200; 400; 409; 500]
  /\ (status r = 200 <->
      exists body, req = JsonValue body /\ well_formed body
        /\ exists a (s' : Store),
             f (sign_up_call body) (store st) = (Returns a, s'))
  /\ (status r = 409 <->
      exists body, req = JsonValue body /\ well_formed body
        /\ exists m (s' : Store),
             f (sign_up_call body) (store st)
             = (Throws (APIError "UNPROCESSABLE_ENTITY" m), s')).
Proof.
  destruct req as [| | body]; [simpl | simpl |].
  - intros [= <-]. simpl. split; [set_solver |].
    split; (split; [discriminate | by intros (? & ? & _)]).
  - discriminate.
  - destruct (validate_dec body) as [Hv | Hv].
    + rewrite (POST_valid f body st Hv).
      pose proof (proj1 (validate_nil_well_formed body) Hv) as Hw.
      destruct (f (sign_up_call body) (store st)) as [[a | e] s'] eqn:Hf.
      * intros [= <-]. simpl. split; [set_solver |]. split.
        -- split; [eauto 10 | reflexivity].
        -- split; [discriminate |].
           intros (b' & [= <-] & _ & m & s'' & Hf'). congruence.
      * destruct e as [code m | m]; simpl.
        -- case_bool_decide as Hc; simpl; intros [= <-]; simpl.
           ++ subst code. split; [set_solver |]. split.
              ** split; [discriminate |].
                 intros (b' & [= <-] & _ & a & s'' & Hf'). congruence.
              ** split; [eauto 10 | reflexivity].
           ++ split; [set_solver |]. split.
              ** split; [discriminate |].
                 intros (b' & [= <-] & _ & a & s'' & Hf'). congruence.
              ** split; [discriminate |].
                 intros (b' & [= <-] & _ & m' & s'' & Hf'). congruence.
        -- intros [= <-]. simpl. split; [set_solver |]. split.
           ++ split; [discriminate |].
              intros (b' & [= <-] & _ & a & s'' & Hf'). congruence.
           ++ split; [discriminate |].
              intros (b' & [= <-] & _ & m' & s'' & Hf'). congruence.
    + rewrite (POST_invalid f body st Hv). simpl. intros [= <-]. simpl.
      rewrite validate_nil_well_formed in Hv.
      split; [set_solver |].
      split; (split; [discriminate |]); intros (b' & [= <-] & Hw & _); done.
Qed.

(** X5. The response of the sign-up action, and what it leaves in the
    store, do not depend on the message of an error the auth library
    throws: the message can only reach the server console. *)
Theorem post_hides_error_messages h f req st :
  (POST (relabel h f) req st).1 = (POST f req st).1
  /\ store (POST (relabel h f) req st).2 = store (POST f req st).2.
Proof.
  destruct req as [| | body]; simpl; [done | done |].
  destruct (0 <? length (validate body))%nat; [done |].
  unfold relabel.
  destruct (f _ (store st)) as [[a | e] s']; [done |].
  destruct e as [code m | m]; simpl; [| done].
  by destruct (bool_decide (code = "UNPROCESSABLE_ENTITY")).
Qed.

(** X6. The sign-up action rejects (throws) for one request only: a body
    that is the JSON value [null]; it then has changed nothing. Every other
    request, and every failure of the auth library, is answered with a
    response. *)
Theorem post_throws_only_on_null f req st :
  (exists e, (POST f req st).1 = Throws e) <-> req = JsonNull.
Proof.
  split.
  - intros [e H]. destruct req as [| | body]; simpl in H;
      [discriminate | reflexivity |].
    exfalso. destruct (0 <? length (validate body))%nat; [discriminate |].
    destruct (f _ (store st)) as [[a | err] s']; [discriminate |].
    by destruct (on_sign_up_error err _).
  - intros ->. simpl. eauto.
Qed.

End ValidateFacts.

(** * More on the gateway and the auth route *)

Lemma prefix_append p s :
  String.prefix p s = true <-> exists rest, s = String.append p rest.
Proof.
  revert s. induction p as [| a p IH]; intros s; simpl.
  - destruct s; split; eauto.
  - destruct s as [| b s]; simpl.
    + split; [discriminate | by intros [? ?]].
    + destruct (Ascii.ascii_dec a b) as [<- | Hne].
      * rewrite IH. split; intros [rest H]; exists rest.
        -- by rewrite H.
        -- change (String a s = String a (String.append p rest)) in H.
           congruence.
      * split; [discriminate |]. intros [rest H].
        change (String b s = String a (String.append p rest)) in H.
        congruence.
Qed.

(** X7. An anonymous request is redirected to the sign-in page exactly
    when its path is the text /dashboard followed by anything: the test is
    on characters, not on path segments, so a path such as
    /dashboard-archive is gated like /dashboard/settings. *)
Theorem anonymous_redirect_paths {World} gs ctx
    (next : Gateway.Handler World) w :
  Gateway.identity (gs (Gateway.request_headers ctx)) = None ->
  Gateway.decision_of (Gateway.handle gs ctx next w)
  = Gateway.RedirectToSignIn
  <-> exists rest, Gateway.pathname ctx = String.append "/dashboard" rest.
Proof.
  intros Hi. rewrite <- prefix_append.
  destruct (handle_cases gs ctx next w) as [_ Hc]. rewrite Hi in Hc.
  simpl in Hc. unfold Gateway.decision_of.
  destruct (String.prefix "/dashboard" (Gateway.pathname ctx)); simpl in Hc.
  - destruct Hc as (_ & _ & ->). done.
  - destruct Hc as (_ & _ & ->). split; discriminate.
Qed.

Lemma anonymous_redirect_paths_witness :
  Gateway.decision_of
    (Gateway.handle Samples.no_cookie
       (Gateway.mkContext "/dashboard-archive" []) Samples.dashboard_page 0)
  = Gateway.RedirectToSignIn
  <-> exists rest, "/dashboard-archive" = String.append "/dashboard" rest.
Proof.
  exact (anonymous_redirect_paths Samples.no_cookie
           (Gateway.mkContext "/dashboard-archive" [])
           Samples.dashboard_page 0 eq_refl).
Defined.

Section GatewayMore.

Import Gateway.

Context {World : Type}.
Implicit Types (gs : GetSession) (ctx : Context) (next : Handler World)
  (before : St World).

(** X8. Whatever [locals] held before, after the middleware it holds the
    user and the session of the lookup, both or neither. [next()] is called
    at most once, and when it is called the downstream handler is given
    exactly these [locals] and the world as it was, and its response is the
    answer. The middleware adds three entries to the console and removes
    none. *)
Theorem locals_carry_resolved_identity gs ctx next before :
  let o := gs (request_headers ctx) in
  let l := mkLocals (identity o) (resolved_session o) in
  let res := onRequest gs ctx next before in
  locals res.2 = l
  /\ (is_Some (locals_user l) <-> is_Some (locals_session l))
  /\ (next_calls res.2 = next_calls before /\ world res.2 = world before
      \/ next_calls res.2 = S (next_calls before)
         /\ (res.1, world res.2) = next l (world before))
  /\ exists more, console res.2 = (console before ++ more)%list
                  /\ length more = 3.
Proof.
  intros o l res. subst o l res.
  unfold onRequest, check_session, protect.
  unfold mbind, mret, M_bind, M_ret, console_log, console_error, set_locals,
    get_locals, call_next.
  destruct (gs (request_headers ctx)) as [[sd |] | e]; simpl;
    destruct (String.prefix "/dashboard" (pathname ctx)); simpl;
    try destruct (next _ (world before)) as [r w'] eqn:Hn; simpl;
    (split; [reflexivity |]);
    (split; [split; intros [? H]; (discriminate H || eauto) |]);
    (split; [auto |]);
    rewrite <- ?app_assoc; eexists; (split; [reflexivity |]); reflexivity.
Qed.

(** X9. For a path outside /dashboard, the catch-all auth route behind the
    gateway answers what the auth handler answers, whoever asks and
    whatever the session lookup does: the handler runs once on the world
    as it was, and the route adds one line to its console. *)
Theorem auth_route_passes_through
    (h : Recovery.Request -> World -> Response * World) gs ctx req out w :
  String.prefix "/dashboard" (pathname ctx) = false ->
  let res := handle gs ctx (fun _ => AuthRoute.ALL h req) (out, w) in
  res.1 = (h req w).1
  /\ (world res.2).2 = (h req w).2
  /\ next_calls res.2 = 1
  /\ exists line, (world res.2).1 = (out ++ [Log line])%list.
Proof.
  intros Hp res.
  destruct (handle_cases gs ctx (fun _ => AuthRoute.ALL h req) (out, w))
    as [_ Hc].
  fold res in Hc. rewrite Hp in Hc. simpl in Hc.
  destruct Hc as (Hr & Hw & Hn). unfold AuthRoute.ALL in Hr, Hw.
  simpl in Hr, Hw. destruct (h req w) as [r w']. simpl in *.
  rewrite Hr, Hw. eauto.
Qed.

End GatewayMore.

Lemma auth_route_passes_through_witness :
  let res := Gateway.handle Samples.store_down
               (Gateway.mkContext "/api/auth/sign-out" [])
               (fun _ => AuthRoute.ALL Cases.pong Cases.sign_out) ([], 4) in
  res.1 = (Cases.pong Cases.sign_out 4).1
  /\ (Gateway.world res.2).2 = (Cases.pong Cases.sign_out 4).2
  /\ Gateway.next_calls res.2 = 1
  /\ exists line, (Gateway.world res.2).1 = ([] ++ [Log line])%list.
Proof.
  exact (auth_route_passes_through Cases.pong Samples.store_down
           (Gateway.mkContext "/api/auth/sign-out" []) Cases.sign_out [] 4
           eq_refl).
Defined.

(** * The components *)

Lemma or_else_nonempty a b : b <> "" -> Axios.or_else a b <> "".
Proof.
  intros Hb. unfold Axios.or_else. destruct a as [s |]; [| exact Hb].
  destruct (String.eqb s "") eqn:Hs; [exact Hb |].
  by apply String.eqb_neq in Hs.
Qed.

(** Closes a goal that says a text of the form [m || fallback] is not
    empty. *)
Ltac shown_text_nonempty :=
  match goal with
  | |- (if String.eqb ?x "" then ?b else ?x) <> "" =>
      change (Axios.or_else (Some x) b <> ""); by apply or_else_nonempty
  end.

Section ForgotPasswordFacts.

Import Axios ForgotPasswordFlow.

(** X10. When the search request resolves, the reset form is shown for
    the email in the field at that moment. If the field was not touched
    while the request was under way, that is the email the code was
    requested for; if it was edited meanwhile, the reset form is bound to
    the edited email, although the one request sent was for the email as it
    was at the submit. *)
Theorem reset_form_follows_email_field st edited :
  showResetForm st = false ->
  let atomic := handleSearchSubmit None st in
  let raced := search_settled None
                 (changeEmail edited (search_started st)) in
  reset_form_email (search_started st) = None
  /\ reset_form_email atomic = Some (email st)
  /\ sent atomic = (sent st ++ [otp_send_request (email st)])%list
  /\ reset_form_email raced = Some edited
  /\ sent raced = (sent st ++ [otp_send_request (email st)])%list.
Proof.
  intros Hs atomic raced. subst atomic raced.
  unfold reset_form_email, handleSearchSubmit, search_settled, changeEmail,
    search_started. simpl. rewrite Hs. auto.
Qed.

(** X11. A failed request of the flow always ends with an error text that
    is not empty and with no success text, whatever was caught: a rejected
    search leaves the reset form as it was (hidden, if it was hidden), and a
    rejected reset shows its error. *)
Theorem flow_errors_are_never_empty :
  (forall caught st,
     let st' := handleSearchSubmit (Some caught) st in
     showResetForm st' = showResetForm st
     /\ isSearching st' = false
     /\ message (status st') = None
     /\ exists m, error (status st') = Some m /\ m <> "")
  /\ (forall e f caught st,
        password f = confirmPassword f ->
        let st' := handleSubmit e f (Some caught) st in
        isResetting st' = false
        /\ message (reset_status st') = None
        /\ exists m, error (reset_status st') = Some m /\ m <> "").
Proof.
  split.
  - intros caught st. simpl. repeat split.
    eexists. split; [reflexivity |]. shown_text_nonempty.
  - intros e f caught st Hp. unfold handleSubmit.
    rewrite Hp, String.eqb_refl. simpl. repeat split.
    eexists. split; [reflexivity |]. shown_text_nonempty.
Qed.

(** X12. The reset form sends its request exactly when the two passwords
    typed are the same. When they differ nothing is sent, the mismatch is
    flagged and the status is cleared. When they agree, one request goes to
    /api/auth/otp/reset-password with the email the form was given, the
    code and the password, and the run ends with the success text or the
    error text, never both and never neither. *)
Theorem reset_request_needs_matching_passwords e f outcome st :
  let st' := handleSubmit e f outcome st in
  (password f <> confirmPassword f ->
   reset_sent st' = reset_sent st
   /\ passwordsMatch st' = false
   /\ isResetting st' = isResetting st
   /\ reset_status st' = mkStatus None None)
  /\ (password f = confirmPassword f ->
      reset_sent st'
      = (reset_sent st
         ++ [mkPost "/api/auth/otp/reset-password"
               [("email", e); ("otp", otp f); ("password", password f)]])%list
      /\ passwordsMatch st' = true
      /\ isResetting st' = false
      /\ (is_Some (message (reset_status st')) <-> outcome = None)
      /\ (is_Some (error (reset_status st')) <-> outcome <> None)).
Proof.
  intros st'. subst st'. unfold handleSubmit. split.
  - intros Hne. apply String.eqb_neq in Hne. rewrite Hne. simpl. auto.
  - intros ->. rewrite String.eqb_refl. simpl.
    destruct outcome as [caught |]; simpl; repeat split; eauto;
      try discriminate; try (by intros [? ?]); try done.
Qed.

End ForgotPasswordFacts.

Lemma reset_form_follows_email_field_witness :
  let st := Cases.flow "ann@example.com" in
  let raced :=
    ForgotPasswordFlow.search_settled None
      (ForgotPasswordFlow.changeEmail "bob@example.com"
         (ForgotPasswordFlow.search_started st)) in
  ForgotPasswordFlow.reset_form_email raced = Some "bob@example.com"
  /\ ForgotPasswordFlow.sent raced
     = [ForgotPasswordFlow.otp_send_request "ann@example.com"].
Proof.
  pose proof (reset_form_follows_email_field
                (Cases.flow "ann@example.com") "bob@example.com" eq_refl)
    as (_ & _ & _ & Hr & Hs).
  split; [exact Hr | exact Hs].
Defined.

Section SignInFacts.

Import Axios SignInForm.

Variable dashboardPath : string.

(** What every handler of the sign-in form keeps: the general error and the
    banner text are set together, no field error is ever set, and the page
    is only ever sent to the dashboard path. *)
Lemma react_keeps_banner_red ev st :
  (fe_general (formErrors st) = generalMessage st
   /\ fe_email (formErrors st) = None /\ fe_password (formErrors st) = None
   /\ (location st = None \/ location st = Some dashboardPath)) ->
  let st' := react dashboardPath ev st in
  fe_general (formErrors st') = generalMessage st'
  /\ fe_email (formErrors st') = None /\ fe_password (formErrors st') = None
  /\ (location st' = None \/ location st' = Some dashboardPath).
Proof.
  intros (Hg & He & Hp & Hl). destruct ev; simpl; auto.
Qed.

Lemma run_keeps_banner_red evs st :
  (fe_general (formErrors st) = generalMessage st
   /\ fe_email (formErrors st) = None /\ fe_password (formErrors st) = None
   /\ (location st = None \/ location st = Some dashboardPath)) ->
  let st' := run dashboardPath evs st in
  fe_general (formErrors st') = generalMessage st'
  /\ fe_email (formErrors st') = None /\ fe_password (formErrors st') = None
  /\ (location st' = None \/ location st' = Some dashboardPath).
Proof.
  revert st. induction evs as [| ev evs IH]; intros st H; simpl; [exact H |].
  apply IH. by apply react_keeps_banner_red.
Qed.

(** X13. Whatever happens to the sign-in form, in any order (password
    shown or hidden, a session arriving, sign-in by email or through a
    provider started, resolved or rejected), the banner above the form is
    never shown in the green style: when it is shown it is red, with the
    text of the last error. No text is ever shown under the email or the
    password input, and the page is only ever sent to the dashboard path. *)
Theorem banner_is_never_green evs :
  let st := run dashboardPath evs initial in
  (forall text, banner st <> Some (Green, text))
  /\ (forall style text, banner st = Some (style, text) ->
      style = Red /\ generalMessage st = Some text /\ text <> "")
  /\ field_texts st = []
  /\ (location st = None \/ location st = Some dashboardPath).
Proof.
  intros st.
  destruct (run_keeps_banner_red evs initial) as (Hg & He & Hp & Hl).
  { simpl. auto. }
  fold st in Hg, He, Hp, Hl.
  assert (Hb : forall style text, banner st = Some (style, text) ->
               style = Red /\ generalMessage st = Some text /\ text <> "").
  { intros style text. unfold banner. rewrite Hg.
    destruct (generalMessage st) as [m |]; simpl; [| discriminate].
    destruct (String.eqb m "") eqn:Hm; simpl; [discriminate |].
    intros [= <- <-]. apply String.eqb_neq in Hm. auto. }
  split; [| split; [exact Hb | split; [| exact Hl]]].
  - intros text H. by destruct (Hb _ _ H).
  - unfold field_texts. by rewrite He, Hp.
Qed.

End SignInFacts.

Section SignUpFormFacts.

Import Axios SignUpForm.

Lemma server_set_error_keys cond key message errors :
  map fst (SignUp.set_error cond key message errors)
  = if cond then (map fst errors ++ [key])%list else map fst errors.
Proof.
  unfold SignUp.set_error. destruct cond; [| reflexivity].
  by rewrite map_app.
Qed.

Lemma client_set_error_keys cond key message errors :
  map fst (set_error cond key message errors)
  = if cond then (map fst errors ++ [key])%list else map fst errors.
Proof.
  unfold set_error. destruct cond; [| reflexivity]. by rewrite map_app.
Qed.

(** The form and the action report the same fields for what the form
    sends. *)
Lemma validateForm_keys st :
  map fst (validateForm st) = map fst (SignUp.validate (request_body st)).
Proof.
  unfold validateForm, SignUp.validate.
  rewrite !server_set_error_keys, !client_set_error_keys. simpl.
  assert (E1 : (negb (negb (bool_decide (name (formData st) = []))) || false
                || (length (SignUp.trim (name (formData st))) =? 0)%nat)
               = (length (SignUp.trim (name (formData st))) =? 0)%nat).
  { destruct (name (formData st)); reflexivity. }
  assert (E2 : (negb (negb (bool_decide (email (formData st) = []))) || false
                || negb (SignUp.test SignUp.email_re (email (formData st))))
               = negb (SignUp.test SignUp.email_re (email (formData st)))).
  { destruct (email (formData st)); reflexivity. }
  assert (E3 : (negb (negb (bool_decide (password (formData st) = [])))
                || false || (length (password (formData st)) <? 8)%nat)
               = (length (password (formData st)) <? 8)%nat).
  { destruct (password (formData st)); reflexivity. }
  assert (E5 : negb (Bool.eqb (termsAccepted st) true)
               = negb (termsAccepted st)).
  { by destruct (termsAccepted st). }
  rewrite E1, E2, E3, E5. reflexivity.
Qed.

Lemma validateForm_nil st :
  validateForm st = [] <-> SignUp.validate (request_body st) = [].
Proof.
  pose proof (validateForm_keys st) as H.
  split; intros E; rewrite E in H; simpl in H.
  - symmetry in H. by apply map_eq_nil in H.
  - by apply map_eq_nil in H.
Qed.

(** X14. The sign-up form and the sign-up action judge a submission alike:
    for the body the form would send, both report errors for the same
    fields, in the same order; so the form lets through exactly the
    submissions the action finds well formed. *)
Theorem form_and_action_validate_alike st :
  map fst (validateForm st) = map fst (SignUp.validate (request_body st))
  /\ (validateForm st = [] <-> SignUpSyntax.well_formed (request_body st)).
Proof.
  split; [apply validateForm_keys |].
  rewrite validateForm_nil. apply validate_nil_well_formed.
Qed.

Lemma handleSubmit_sent outcome st :
  sent (handleSubmit outcome st)
  = if (length (validateForm st) =? 0)%nat
    then (sent st ++ [("/api/auth/sign-up/email", request_body st)])%list
    else sent st.
Proof.
  unfold handleSubmit. destruct (length (validateForm st) =? 0)%nat; simpl;
    [by destruct outcome | reflexivity].
Qed.

(** X15. Whatever the visitor types, ticks and submits, and whatever the
    server answers, every request the sign-up form sends goes to
    /api/auth/sign-up/email and carries a submission that is well formed in
    the sense of the sign-up action: a submission the form's own checks
    reject is never sent, and a submit sends at most one request. *)
Theorem form_sends_only_well_formed evs st :
  Forall (fun p => p.1 = "/api/auth/sign-up/email"
                   /\ SignUpSyntax.well_formed p.2) (sent st) ->
  Forall (fun p => p.1 = "/api/auth/sign-up/email"
                   /\ SignUpSyntax.well_formed p.2) (sent (run evs st))
  /\ length (sent (run evs st))
     <= length (sent st) + length (List.filter is_submit evs).
Proof.
  revert st. induction evs as [| ev evs IH]; intros st H; simpl.
  - split; [exact H | lia].
  - assert (Hs : Forall (fun p => p.1 = "/api/auth/sign-up/email"
                                   /\ SignUpSyntax.well_formed p.2)
                   (sent (react ev st))
                 /\ length (sent (react ev st))
                    <= length (sent st) + (if is_submit ev then 1 else 0)).
    { destruct ev as [field value | checked | outcome]; simpl;
        [split; [exact H | lia] | split; [exact H | lia] |].
      rewrite handleSubmit_sent.
      destruct (length (validateForm st) =? 0)%nat eqn:Hv.
      - apply Nat.eqb_eq, length_zero_iff_nil in Hv.
        apply validateForm_nil, validate_nil_well_formed in Hv.
        split; [| rewrite length_app; simpl; lia].
        apply Forall_app. split; [exact H |]. by repeat constructor.
      - split; [exact H | lia]. }
    destruct Hs as [Hf Hl]. destruct (IH _ Hf) as [IH1 IH2].
    split; [exact IH1 |].
    destruct (is_submit ev); simpl in *; lia.
Qed.

(** X16. When a request of the form is answered with a response of the
    sign-up action, the form shows what the action said: on 200 the success
    panel and no error; on 409 the action's text under the email field; on
    500 the action's message in the general box. The action never answers
    400 to a submission the form sends, and the network-error text is not
    shown for any of its responses. *)
Theorem form_shows_action_errors {Store}
    (f : SignUp.SignUpEmailBody -> Store -> Outcome unit * Store)
    (server : SignUp.St Store) st msg r :
  validateForm st = [] ->
  (SignUp.POST f (SignUp.JsonValue (request_body st)) server).1 = Returns r ->
  let st' := handleSubmit (settle msg r) st in
  (status r = 200 /\ isSuccess st' = true /\ errors st' = [])
  \/ (status r = 409 /\ isSuccess st' = isSuccess st
      /\ errors st'
         = [("email", "Пользователь с таким email уже существует.")])
  \/ (status r = 500 /\ isSuccess st' = isSuccess st
      /\ exists m, errors st' = [("general", m)]
                   /\ body r = Some (JsonObject [("message", JsonString m)])
                   /\ m <> "Ошибка сети. Попробуйте снова.").
Proof.
  intros Hv Hr st'. subst st'.
  pose proof (proj1 (validateForm_nil st) Hv) as Hs.
  rewrite (POST_valid f (request_body st) server Hs) in Hr.
  unfold handleSubmit. rewrite Hv. simpl.
  destruct (f _ (SignUp.store server)) as [[a | e] s'].
  - injection Hr as <-. left. repeat split.
  - destruct e as [code m | m]; simpl in Hr.
    + destruct (bool_decide (code = "UNPROCESSABLE_ENTITY"));
        injection Hr as <-.
      * right. left. repeat split.
      * right. right. repeat split. eexists. repeat split. discriminate.
    + injection Hr as <-. right. right. repeat split.
      eexists. repeat split. discriminate.
Qed.

End SignUpFormFacts.

Lemma post_rejects_before_sign_up_witness :
  exists r,
    SignUp.POST SignUp.signUpEmail_accounts
      (SignUp.JsonValue Cases.short_password) (Samples.sign_up_state [])
    = (Returns r, Samples.sign_up_state [])
    /\ status r = 400
    /\ SignUp.POST (fun _ s => (Returns tt, s))
         (SignUp.JsonValue Cases.short_password) (Samples.sign_up_state [])
       = SignUp.POST SignUp.signUpEmail_accounts
           (SignUp.JsonValue Cases.short_password) (Samples.sign_up_state []).
Proof.
  apply (post_rejects_before_sign_up SignUp.signUpEmail_accounts
           (fun _ s => (Returns tt, s))
           (SignUp.JsonValue Cases.short_password) (Samples.sign_up_state [])).
  right. exists Cases.short_password. split; [reflexivity |].
  rewrite <- validate_nil_well_formed. vm_compute. discriminate.
Defined.

Lemma post_status_witness :
  let r := json_response 409
             (JsonObject
                [("errors",
                  JsonObject
                    [("email",
                      JsonString
                        "Пользователь с таким email уже существует.")])]) in
  status r ∈ [200; 400; 409; 500]
  /\ (status r = 200 <->
      exists body, SignUp.JsonValue Samples.ann = SignUp.JsonValue body
        /\ SignUpSyntax.well_formed body
        /\ exists a (s' : list SignUp.jsstring),
             SignUp.signUpEmail_accounts (SignUpSyntax.sign_up_call body)
               [SignUp.js "ann@example.com"] = (Returns a, s'))
  /\ (status r = 409 <->
      exists body, SignUp.JsonValue Samples.ann = SignUp.JsonValue body
        /\ SignUpSyntax.well_formed body
        /\ exists m (s' : list SignUp.jsstring),
             SignUp.signUpEmail_accounts (SignUpSyntax.sign_up_call body)
               [SignUp.js "ann@example.com"]
             = (Throws (APIError "UNPROCESSABLE_ENTITY" m), s')).
Proof.
  apply (post_status SignUp.signUpEmail_accounts (SignUp.JsonValue Samples.ann)
           (Samples.sign_up_state [SignUp.js "ann@example.com"])).
  vm_compute. reflexivity.
Defined.

Lemma form_sends_only_well_formed_witness :
  let evs :=
    [SignUpForm.Input SignUpForm.FPassword (SignUp.js "short");
     SignUpForm.Submit None;
     SignUpForm.Input SignUpForm.FPassword (SignUp.js "longenough1");
     SignUpForm.Submit (Some Axios.OtherValue)] in
  Forall (fun p => p.1 = "/api/auth/sign-up/email"
                   /\ SignUpSyntax.well_formed p.2)
    (SignUpForm.sent (SignUpForm.run evs Cases.ann_form))
  /\ length (SignUpForm.sent (SignUpForm.run evs Cases.ann_form))
     <= length (SignUpForm.sent Cases.ann_form)
        + length (List.filter SignUpForm.is_submit evs).
Proof.
  apply (form_sends_only_well_formed
           [SignUpForm.Input SignUpForm.FPassword (SignUp.js "short");
            SignUpForm.Submit None;
            SignUpForm.Input SignUpForm.FPassword (SignUp.js "longenough1");
            SignUpForm.Submit (Some Axios.OtherValue)] Cases.ann_form).
  simpl. constructor.
Defined.

Example form_run_sends_one_request :
  map fst
    (SignUpForm.sent
       (SignUpForm.run
          [SignUpForm.Input SignUpForm.FPassword (SignUp.js "short");
           SignUpForm.Submit None;
           SignUpForm.Input SignUpForm.FPassword (SignUp.js "longenough1");
           SignUpForm.Submit (Some Axios.OtherValue)] Cases.ann_form))
  = ["/api/auth/sign-up/email"].
Proof. vm_compute. reflexivity. Qed.

Lemma form_shows_action_errors_witness :
  let r := json_response 409
             (JsonObject
                [("errors",
                  JsonObject
                    [("email",
                      JsonString
                        "Пользователь с таким email уже существует.")])]) in
  let st' := SignUpForm.handleSubmit
               (SignUpForm.settle "Request failed with status code 409" r)
               Cases.ann_form in
  (status r = 200 /\ SignUpForm.isSuccess st' = true
   /\ SignUpForm.errors st' = [])
  \/ (status r = 409
      /\ SignUpForm.isSuccess st' = SignUpForm.isSuccess Cases.ann_form
      /\ SignUpForm.errors st'
         = [("email", "Пользователь с таким email уже существует.")])
  \/ (status r = 500
      /\ SignUpForm.isSuccess st' = SignUpForm.isSuccess Cases.ann_form
      /\ exists m, SignUpForm.errors st' = [("general", m)]
                   /\ body r = Some (JsonObject [("message", JsonString m)])
                   /\ m <> "Ошибка сети. Попробуйте снова.").
Proof.
  apply (form_shows_action_errors SignUp.signUpEmail_accounts
           (Samples.sign_up_state [SignUp.js "ann@example.com"])
           Cases.ann_form "Request failed with status code 409");
    vm_compute; reflexivity.
Defined.
